(** * Notebooks: Fibonacci iterators, cardinality, Richardson-Lucy

    A shallow embedding of the code cells of the notebooks
    [Python/Iterator.ipynb] (functions [fibonacci], [fibonacci_iter],
    [fibonacci_gen]), of the Richardson-Lucy notebook (functions [convolve]
    and [RL_Deconvolve]) and of the definitions notebook (the cardinality
    cell), followed by the properties proved about them.

    Python integers are unbounded, so they are [Z].  Python objects that are
    mutated (the iterator instance, the generator frame, NumPy arrays) are
    modelled with explicit state. *)

From Stdlib Require Import ZArith QArith Lia.
From stdpp Require Import base option list gmap sets strings pretty.

Local Open Scope Z_scope.

(* ===================================================================== *)
(** * Part I: the programs                                                *)
(* ===================================================================== *)

(** ** Iterator notebook *)

(** [range(n)]: the integers [0, 1, ..., n-1] in order (a list in Python 2,
    a lazy sequence in Python 3); empty for [n <= 0]. *)
Definition range (n : Z) : list Z := seqZ 0 n.

Module Fib.

(** The local variables of [fibonacci]. *)
Record locals := Locals { res : list Z; previous : Z; current : Z }.

(** Body of the [for] loop of [fibonacci]:
<<
      previous, current = current, previous + current
      res.append(previous)
>>
    The right-hand side tuple is evaluated before either name is bound. *)
Definition loop_body (st : locals) (i : Z) : locals :=
  let '(previous', current') := (current st, previous st + current st) in
  {| res := res st ++ [previous'];
     previous := previous';
     current := current' |}.

(** [def fibonacci(end)]. *)
Definition fibonacci (end_ : Z) : list Z :=
  let st0 := {| res := []; previous := 0; current := 1 |} in
  res (foldl loop_body st0 (range end_)).

(** The iterator protocol: [next] either produces a value and a new state
    of the object, or raises [StopIteration] ([None]). *)
Class Iterator (S : Type) := iter_next : S -> option (Z * S).

(** [class fibonacci_iter]: the two attributes of an instance. *)
Record fibonacci_iter := Instance_ { self_previous : Z; self_current : Z }.

(** [__init__]. *)
Definition init : fibonacci_iter :=
  {| self_previous := 0; self_current := 1 |}.

(** [__iter__] returns [self]. *)
Definition iter (self : fibonacci_iter) : fibonacci_iter := self.

(** [next]: returns the value and the instance after the two attribute
    updates.
<<
      value = self.current
      self.current += self.previous
      self.previous = value
      return value
>> *)
Definition next (self : fibonacci_iter) : Z * fibonacci_iter :=
  let value := self_current self in
  let self1 := {| self_previous := self_previous self;
                  self_current := self_current self + self_previous self |} in
  let self2 := {| self_previous := value;
                  self_current := self_current self1 |} in
  (value, self2).

#[global] Instance fibonacci_iter_Iterator : Iterator fibonacci_iter :=
  fun self => Some (next self).

(** [def fibonacci_gen(end)]: a generator object is a suspended frame.
    [GenCreated] is the frame before its first [next]; [GenSuspended] is the
    frame stopped at [yield current]; [GenFinished] is a frame whose body
    returned. The frame keeps the argument [end]. *)
Inductive generator :=
| GenCreated (end_ : Z)
| GenSuspended (end_ previous current : Z)
| GenFinished.

Definition fibonacci_gen (end_ : Z) : generator := GenCreated end_.

(** Resuming the frame runs the body up to the next [yield]:
<<
      previous, current = 0, 1
      while True:
          yield current
          previous, current = current, previous + current
>> *)
Definition gen_next (g : generator) : option (Z * generator) :=
  match g with
  | GenCreated end_ =>
      let '(previous, current) := (0, 1) in
      Some (current, GenSuspended end_ previous current)
  | GenSuspended end_ previous current =>
      let '(previous', current') := (current, previous + current) in
      Some (current', GenSuspended end_ previous' current')
  | GenFinished => None
  end.

#[global] Instance generator_Iterator : Iterator generator := gen_next.

(** Pulling at most [n] values out of an iterator, stopping at
    [StopIteration]; the result is the values and the state left behind. *)
Fixpoint pull {S : Type} `{Iterator S} (n : nat) (it : S) : list Z * S :=
  match n with
  | O => ([], it)
  | Datatypes.S n' =>
      match iter_next it with
      | None => ([], it)
      | Some (v, it') =>
          let '(vs, it'') := pull n' it' in (v :: vs, it'')
      end
  end.

(** [list(islice(it, start, stop))] of [itertools]: skip [start] values,
    then collect up to index [stop]. [islice] first checks its bounds: each
    must satisfy [0 <= x <= sys.maxsize], or [ValueError] is raised
    ([None]) before any value is taken. [sys.maxsize] depends on the
    interpreter (2^63 - 1 on a 64-bit build), so it is the parameter
    [maxsize]. *)
Definition list_islice {S : Type} `{Iterator S}
    (maxsize : Z) (it : S) (start stop : Z) : option (list Z) :=
  if bool_decide (0 <= start <= maxsize ∧ 0 <= stop <= maxsize) then
    let '(_, it1) := pull (Z.to_nat start) it in
    Some (fst (pull (Z.to_nat (stop - start)) it1))
  else None.

(** The Fibonacci numbers of the notebook's formula
    [F_n = F_{n-1} + F_{n-2}], with [F_0 = 0] and [F_1 = 1]. *)
Fixpoint F (n : nat) : Z :=
  match n with
  | O => 0
  | Datatypes.S n' =>
      match n' with
      | O => 1
      | Datatypes.S n'' => F n' + F n''
      end
  end.

(** The terms [F_{j+1}, ..., F_{j+k}] of the sequence: the prefix of
    length [k] of the Fibonacci sequence [1, 1, 2, 3, ...] is [terms 0 k]. *)
Definition terms (j k : nat) : list Z :=
  (fun i => F (Datatypes.S i)) <$> seq j k.

(** States of an iterator instance reachable from a fresh one by calls to
    [next]. *)
Inductive reachable : fibonacci_iter -> Prop :=
| reachable_init : reachable init
| reachable_next self : reachable self -> reachable (snd (next self)).

(** The instance holds the [k]-th and [k+1]-th Fibonacci numbers. *)
Definition holds_pair (k : nat) (self : fibonacci_iter) : Prop :=
  (self_previous self, self_current self) = (F k, F (Datatypes.S k)).

End Fib.

(** ** Definitions notebook: cardinality *)

Module Card.
Section Cardinality.
Context {A : Type} `{Countable A}.

(** [set(xs)]: the elements of the iterable are added one by one. *)
Definition set (xs : list A) : gset A :=
  foldl (fun s x => {[x]} ∪ s) ∅ xs.

(** [len(s)]. *)
Definition len (s : gset A) : Z := Z.of_nat (size s).

(** The number of distinct elements of a list, counted directly: an
    element counts when it does not occur again further on. *)
Fixpoint distinct_count_spec (xs : list A) : nat :=
  match xs with
  | [] => O
  | x :: xs' =>
      if decide (x ∈ xs') then distinct_count_spec xs'
      else Datatypes.S (distinct_count_spec xs')
  end.
End Cardinality.

(** [str] of an integer. *)
Definition str (n : Z) : string := pretty n.

(** The Python 2 statement [print a, b]: the items separated by a space. *)
Definition print (items : list string) : string :=
  String.concat " " items.

(** The cell:
<<
      A = set([1, 1, 2, 3, 5])
      print 'card(A) =', len(A)
>> *)
Definition A : gset Z := set [1; 1; 2; 3; 5].
Definition printed_card : string := print ["card(A) ="%string; str (len A)].
End Card.

(** ** Richardson-Lucy notebook *)

Module RL.

(** The keyword arguments of Astropy's [convolve_fft] that the notebook
    sets. *)
Record fft_kwargs := Kwargs {
  boundary : string;
  crop : bool;
  nan_treatment : string;
  normalize_kernel : bool }.

(** The NumPy and Astropy functions the notebook calls. Their code is not
    in the notebooks, so they are an interface: array contents, shapes and
    exceptions are abstract, and every call either raises or returns. A
    call is a function of the contents of its arguments: it writes to none
    of them (the in-place product is the model's [imul], which stores what
    [np_imul] computes). [np_rot90 m k] returns a view: the function from
    the contents of the buffer of [m] to the contents seen through the
    rotated view. *)
Class Library := {
  ndarray : Type;
  dims : Type;
  exn : Type;
  np_shape : ndarray -> dims;
  np_ones : dims -> exn + ndarray;
  np_scalar_mul : Q -> ndarray -> exn + ndarray;
  np_rot90 : ndarray -> Z -> exn + (ndarray -> ndarray);
  np_divide : ndarray -> ndarray -> exn + ndarray;
  np_imul : ndarray -> ndarray -> exn + ndarray;
  convolve_fft : ndarray -> ndarray -> fft_kwargs -> exn + ndarray }.

(** Addresses of array buffers. *)
Abbreviation loc := positive.

(** The library functions, as they appear in the record of calls. *)
Inductive libcall :=
| NpOnes | NpScalarMul | NpRot90 | NpDivide | NpIMul | ConvolveFft.

#[global] Instance libcall_eq_dec : EqDecision libcall.
Proof. solve_decision. Defined.

Section Model.
Context {L : Library}.

(** An array object: the buffer it reads, and how the buffer's contents
    are seen through it (the identity for an array that owns its
    buffer). *)
Record aref := Aref { base : loc; see : ndarray -> ndarray }.

Definition whole (l : loc) : aref := {| base := l; see := fun b => b |}.

(** One library call of a run and how it ended. *)
Inductive event :=
| Returned (f : libcall)
| Threw (f : libcall) (e : exn).

(** The interpreter state: the buffers, and the record of the library
    calls made so far (oldest first). *)
Record state := State {
  heap : gmap loc ndarray;
  trace : list event }.

(** How a computation ends: with a value, with an exception that
    propagates to the caller, or stuck on a reference to a buffer that
    does not exist (which Python's references cannot be). *)
Inductive outcome (A : Type) :=
| Done (a : A)
| Raised (e : exn)
| Stuck.
Global Arguments Done {A} a.
Global Arguments Raised {A} e.
Global Arguments Stuck {A}.

Definition M (A : Type) : Type := state -> outcome A * state.

Definition ret {A} (a : A) : M A := fun s => (Done a, s).

(** Sequencing: an exception in the first part skips the rest. *)
Definition bind {A B} (m : M A) (k : A -> M B) : M B :=
  fun s =>
    match m s with
    | (Done a, s') => k a s'
    | (Raised e, s') => (Raised e, s')
    | (Stuck, s') => (Stuck, s')
    end.

(** A library call: recorded, and its exception raised. *)
Definition call {A} (f : libcall) (r : exn + A) : M A :=
  fun s =>
    match r with
    | inr a => (Done a, {| heap := heap s; trace := trace s ++ [Returned f] |})
    | inl e => (Raised e, {| heap := heap s; trace := trace s ++ [Threw f e] |})
    end.

(** The contents seen through an array object. *)
Definition value (s : state) (r : aref) : option ndarray :=
  see r <$> heap s !! base r.

Definition read (r : aref) : M ndarray :=
  fun s =>
    match value s r with
    | Some v => (Done v, s)
    | None => (Stuck, s)
    end.

(** A new array object with its own buffer. *)
Definition new (v : ndarray) : M aref :=
  fun s =>
    let l := fresh (dom (heap s)) in
    (Done (whole l), {| heap := <[l := v]> (heap s); trace := trace s |}).

(** Overwriting the buffer of an array that owns it. *)
Definition store (l : loc) (v : ndarray) : M unit :=
  fun s =>
    match heap s !! l with
    | Some _ => (Done tt, {| heap := <[l := v]> (heap s); trace := trace s |})
    | None => (Stuck, s)
    end.

(** [for i in range(n): body]. *)
Fixpoint for_each (idx : list Z) (body : Z -> M unit) : M unit :=
  match idx with
  | [] => ret tt
  | i :: idx' => bind (body i) (fun _ => for_each idx' body)
  end.
Definition for_range (n : Z) (body : Z -> M unit) : M unit :=
  for_each (range n) body.
End Model.

Declare Scope py_scope.
Delimit Scope py_scope with py.
Notation "x <- m ;; k" := (bind m (fun x => k))
  (at level 100, m at next level, right associativity) : py_scope.
Notation "m ;;; k" := (bind m (fun _ => k))
  (at level 100, right associativity) : py_scope.

Section Program.
Context {L : Library}.
Local Open Scope py_scope.

(** [np.ones(shape)], [c * a], [a / b]: each returns a new array. *)
Definition ones (shape : dims) : M aref :=
  v <- call NpOnes (np_ones shape);; new v.

Definition scalar_mul (c : Q) (a : aref) : M aref :=
  va <- read a;;
  v <- call NpScalarMul (np_scalar_mul c va);;
  new v.

Definition divide (a b : aref) : M aref :=
  va <- read a;;
  vb <- read b;;
  v <- call NpDivide (np_divide va vb);;
  new v.

(** [np.rot90(m, k)]: a view of the buffer of [m]. *)
Definition rot90 (m : aref) (k : Z) : M aref :=
  vm <- read m;;
  rot <- call NpRot90 (np_rot90 vm k);;
  ret {| base := base m; see := fun b => rot (see m b) |}.

(** [a *= b] for an array [a] that owns its buffer, at [l]: the buffer is
    overwritten with the product. *)
Definition imul (l : loc) (b : aref) : M unit :=
  va <- read (whole l);;
  vb <- read b;;
  v <- call NpIMul (np_imul va vb);;
  store l v.

(** [image.shape]. *)
Definition shape_of (image : aref) : M dims :=
  v <- read image;; ret (np_shape v).

(** The notebook's convolution method:
<<
    def convolve(image, kernel):
        return convolve_fft(image, kernel, boundary='wrap', crop=False,
                            nan_treatment='fill', normalize_kernel=False)
>> *)
Definition convolve_kwargs : fft_kwargs :=
  {| boundary := "wrap"; crop := false;
     nan_treatment := "fill"; normalize_kernel := false |}.

Definition convolve (image kernel : aref) : M aref :=
  vi <- read image;;
  vk <- read kernel;;
  v <- call ConvolveFft (convolve_fft vi vk convolve_kwargs);;
  new v.

(** The statement in the loop of [RL_Deconvolve]:
<<
    x_hat *= convolve(image / convolve(x_hat, psf), psf_rot)
>> *)
Definition loop_body (image psf psf_rot : aref) (x_hat : loc) (i : Z)
    : M unit :=
  c <- convolve (whole x_hat) psf;;
  q <- divide image c;;
  r <- convolve q psf_rot;;
  imul x_hat r.

(** The notebook's deconvolution method:
<<
    def RL_Deconvolve(image, psf, n_iter=30):
        x_hat = 0.5 * np.ones(image.shape)
        psf_rot = np.rot90(psf, 2)
        for i in range(n_iter):
            x_hat *= convolve(image / convolve(x_hat, psf), psf_rot)
        return x_hat
>> *)
Definition RL_Deconvolve (image psf : aref) (n_iter : Z) : M aref :=
  shape <- shape_of image;;
  o <- ones shape;;
  x_hat <- scalar_mul 0.5%Q o;;
  psf_rot <- rot90 psf 2;;
  for_range n_iter (loop_body image psf psf_rot (base x_hat));;;
  ret x_hat.

(** The call with [n_iter] left to its default, [n_iter=30]. *)
Definition RL_Deconvolve_default (image psf : aref) : M aref :=
  RL_Deconvolve image psf 30.
End Program.

(** *** The method as the notebook's text states it

    The next estimate is the current estimate [x] times
    [convolve(y / convolve(x, H), H_rot)], starting from an array of 0.5
    with the shape of [y], where [H_rot] is the PSF rotated by 180
    degrees. These definitions work on array contents and know nothing of
    buffers. *)
Section Method.
Context {L : Library}.

Definition and_then {A B} (r : exn + A) (k : A -> exn + B) : exn + B :=
  match r with
  | inl e => inl e
  | inr a => k a
  end.

(** One multiplicative correction of the estimate [x]. *)
Definition correction_spec (y H H_rot x : ndarray) : exn + ndarray :=
  and_then (convolve_fft x H convolve_kwargs) (fun c =>
  and_then (np_divide y c) (fun q =>
  and_then (convolve_fft q H_rot convolve_kwargs) (fun r =>
  np_imul x r))).

Fixpoint corrections_spec (n : nat) (y H H_rot x : ndarray) : exn + ndarray :=
  match n with
  | O => inr x
  | Datatypes.S n' =>
      and_then (correction_spec y H H_rot x) (corrections_spec n' y H H_rot)
  end.

Definition richardson_lucy_spec (y H : ndarray) (n_iter : Z) : exn + ndarray :=
  and_then (np_ones (np_shape y)) (fun o =>
  and_then (np_scalar_mul 0.5%Q o) (fun x0 =>
  and_then (np_rot90 H 2) (fun rot =>
  corrections_spec (Z.to_nat n_iter) y H (rot H) x0))).
End Method.

(** *** Reading the record of calls *)
Section Records.
Context {L : Library}.

Definition returned (ev : event) : Prop :=
  match ev with
  | Returned _ => True
  | Threw _ _ => False
  end.

(** An update step of the estimate is an in-place product that
    returned. *)
Definition is_update (ev : event) : bool :=
  match ev with
  | Returned NpIMul => true
  | _ => false
  end.

Fixpoint updates (t : list event) : nat :=
  match t with
  | [] => O
  | ev :: t' => ((if is_update ev then 1 else 0) + updates t')%nat
  end.

(** The calls [t] of a computation that ended with [o]: every call
    returned, except that a computation ending with an exception made one
    more call, the last, which threw that exception. *)
Definition propagated {A} (o : outcome A) (t : list event) : Prop :=
  match o with
  | Raised e => exists t0 f, t = t0 ++ [Threw f e] /\ Forall returned t0
  | _ => Forall returned t
  end.

(** A computation that neither catches nor invents exceptions. *)
Definition transparent {A} (m : M A) : Prop :=
  forall s, exists t,
    trace (snd (m s)) = trace s ++ t /\ propagated (fst (m s)) t.

(** A computation that makes at most [k] update steps, and exactly [k]
    when it ends with a value. *)
Definition steps (k : nat) {A} (m : M A) : Prop :=
  forall s, exists t,
    trace (snd (m s)) = trace s ++ t /\
    (updates t <= k)%nat /\
    forall a, fst (m s) = Done a -> updates t = k.

(** Every array that can be read in [s] reads the same in [s']. *)
Definition extends (s s' : state) : Prop :=
  forall r v, value s r = Some v -> value s' r = Some v.

(** A computation that leaves the buffers of [h0] as they are, and whose
    result satisfies [Q]. *)
Definition keeps (h0 : gmap loc ndarray) {A} (m : M A) (Q : A -> Prop)
    : Prop :=
  forall s, h0 ⊆ heap s ->
    h0 ⊆ heap (snd (m s)) /\ forall a, fst (m s) = Done a -> Q a.
(** The library calls made before the loop, in one round of it, and in [n]
    rounds, when all of them return. *)
Definition setup_calls : list event :=
  [Returned NpOnes; Returned NpScalarMul; Returned NpRot90].

Definition round_calls : list event :=
  [Returned ConvolveFft; Returned NpDivide; Returned ConvolveFft;
   Returned NpIMul].

Fixpoint rounds (n : nat) : list event :=
  match n with
  | O => []
  | Datatypes.S n' => round_calls ++ rounds n'
  end.

(** A computation that has made exactly the calls [t] whenever it ends with
    a value. *)
Definition logs (t : list event) {A} (m : M A) : Prop :=
  forall s a s', m s = (Done a, s') -> trace s' = trace s ++ t.
End Records.

End RL.

(** ** A library to run the model on

    Arrays of one element with one or more axes (shape [(1,)], [(1, 1)],
    ...), and exact arithmetic on the element. On such arrays a convolution
    under the [wrap] boundary is a product and a rotation leaves the element
    where it is. The element is a rational, or one of the two values that
    floating point gives to a division by zero, after which NumPy goes on
    (with a warning) and raises nothing; the sign of an infinity, rounding
    and overflow are not modelled. What does raise is a mismatch of the
    numbers of axes: [np.rot90] needs two axes, [convolve_fft] an image and
    a kernel with the same number of axes, and an in-place product an
    operand that broadcasts to the shape of its target. *)
Module Pixel.
Local Open Scope Q_scope.

(** The exceptions, named by their cause. *)
Inductive error :=
| AxesOutOfRange
| AxesDiffer
| NotBroadcastable.

Inductive scalar :=
| Fin (q : Q)
| Inf
| NaN.

Definition mul (a b : scalar) : scalar :=
  match a, b with
  | NaN, _ => NaN
  | _, NaN => NaN
  | Fin p, Fin q => Fin (p * q)
  | Inf, Fin q => if Qeq_bool q 0 then NaN else Inf
  | Fin p, Inf => if Qeq_bool p 0 then NaN else Inf
  | Inf, Inf => Inf
  end.

Definition div (a b : scalar) : scalar :=
  match a, b with
  | NaN, _ => NaN
  | _, NaN => NaN
  | Fin p, Fin q =>
      if Qeq_bool q 0 then (if Qeq_bool p 0 then NaN else Inf)
      else Fin (p / q)
  | Fin _, Inf => Fin 0
  | Inf, Fin _ => Inf
  | Inf, Inf => NaN
  end.

(** [convolve_fft] replaces the elements that are not finite by 0 before it
    convolves (for the image this is [nan_treatment='fill'], with the
    default [fill_value] of 0). *)
Definition filled (a : scalar) : Q :=
  match a with
  | Fin q => q
  | _ => 0
  end.

(** A one-element array: its number of axes and its element. *)
Record array := Array { ndim : positive; elt : scalar }.

Definition rot90 (m : array) (k : Z) : error + (array -> array) :=
  if (ndim m <? 2)%positive then inl AxesOutOfRange
  else inr (fun b => b).

Definition convolve_fft (a k : array) (kw : RL.fft_kwargs)
    : error + array :=
  if (ndim a =? ndim k)%positive
  then inr {| ndim := ndim a; elt := Fin (filled (elt a) * filled (elt k)) |}
  else inl AxesDiffer.

Definition divide (a b : array) : error + array :=
  inr {| ndim := Pos.max (ndim a) (ndim b); elt := div (elt a) (elt b) |}.

Definition imul (a b : array) : error + array :=
  if (ndim b <=? ndim a)%positive
  then inr {| ndim := ndim a; elt := mul (elt a) (elt b) |}
  else inl NotBroadcastable.

#[global] Instance library : RL.Library := {|
  RL.ndarray := array;
  RL.dims := positive;
  RL.exn := error;
  RL.np_shape := ndim;
  RL.np_ones := fun d => inr {| ndim := d; elt := Fin 1 |};
  RL.np_scalar_mul :=
    fun c a => inr {| ndim := ndim a; elt := mul (Fin c) (elt a) |};
  RL.np_rot90 := rot90;
  RL.np_divide := divide;
  RL.np_imul := imul;
  RL.convolve_fft := convolve_fft |}.

(** A 1x1 image, and a vector of one element. *)
Definition arr (q : Q) : array := {| ndim := 2; elt := Fin q |}.
Definition vec (q : Q) : array := {| ndim := 1; elt := Fin q |}.

(** A state with an array [y] at address 1 and an array [h] at address 2. *)
Definition two (y h : array) : RL.state :=
  {| RL.heap := <[2%positive := h]> (<[1%positive := y]> ∅);
     RL.trace := [] |}.

(** The same with an observed 1x1 image [y] and a 1x1 PSF [h]. *)
Definition two_arrays (y h : Q) : RL.state := two (arr y) (arr h).

Definition image : RL.aref := RL.whole 1.
Definition psf : RL.aref := RL.whole 2.
End Pixel.

(* ===================================================================== *)
(** * Part II: properties                                                 *)
(* ===================================================================== *)

(** ** The Fibonacci programs *)

Section FibonacciFacts.
Import Fib.

Example fibonacci_10 :
  fibonacci 10 = [1; 1; 2; 3; 5; 8; 13; 21; 34; 55].
Proof. reflexivity. Qed.

Example fibonacci_negative : fibonacci (-3) = [].
Proof. reflexivity. Qed.

Example islice_10 :
  list_islice (2 ^ 63 - 1) (iter init) 0 10
  = Some [1; 1; 2; 3; 5; 8; 13; 21; 34; 55].
Proof. reflexivity. Qed.

Example gen_10 :
  fst (pull 10 (fibonacci_gen 7)) = [1; 1; 2; 3; 5; 8; 13; 21; 34; 55].
Proof. reflexivity. Qed.

Lemma F_rec (k : nat) : F (S (S k)) = F (S k) + F k.
Proof. reflexivity. Qed.

Lemma terms_S (j k : nat) : terms j (S k) = terms j k ++ [F (S (j + k))].
Proof. unfold terms. by rewrite seq_S, fmap_app. Qed.

Lemma terms_cons (j k : nat) : terms j (S k) = F (S j) :: terms (S j) k.
Proof. reflexivity. Qed.

Lemma length_terms (j k : nat) : length (terms j k) = k.
Proof. unfold terms. by rewrite length_fmap, length_seq. Qed.

Lemma lookup_terms (j k i : nat) :
  (i < k)%nat -> terms j k !! i = Some (F (S (j + i))).
Proof.
  intros Hi. unfold terms.
  by rewrite list_lookup_fmap, lookup_seq_lt.
Qed.

(** Loop invariant of [fibonacci]: after [k] rounds the locals hold the
    first [k] terms and the pair [(F_k, F_{k+1})]. *)
Lemma fibonacci_loop (k : nat) :
  foldl loop_body {| res := []; previous := 0; current := 1 |}
        (range (Z.of_nat k))
  = {| res := terms 0 k; previous := F k; current := F (S k) |}.
Proof.
  unfold range. induction k as [|k IH].
  - reflexivity.
  - rewrite seqZ_S, foldl_snoc, IH. unfold loop_body; simpl res.
    cbn [previous current]. rewrite terms_S, F_rec. simpl plus.
    f_equal. lia.
Qed.

Lemma fibonacci_terms (k : nat) : fibonacci (Z.of_nat k) = terms 0 k.
Proof. unfold fibonacci. cbv zeta. by rewrite fibonacci_loop. Qed.

(** What [pull] gets out of an iterator instance. *)
Lemma pull_iter (k j : nat) (self : fibonacci_iter) :
  holds_pair j self ->
  fst (pull k self) = terms j k /\ holds_pair (j + k) (snd (pull k self)).
Proof.
  revert j self. induction k as [|k IH]; intros j self Hj.
  - simpl. by rewrite Nat.add_0_r.
  - destruct self as [p c]. unfold holds_pair in Hj. simpl in Hj.
    injection Hj as -> ->.
    cbn [pull iter_next fibonacci_iter_Iterator next self_current
         self_previous].
    destruct (IH (S j) {| self_previous := F (S j);
                          self_current := F (S j) + F j |}) as [IH1 IH2].
    { unfold holds_pair. simpl self_previous. simpl self_current.
      by rewrite F_rec. }
    destruct (pull k _) as [vs it'']. simpl in IH1, IH2. simpl fst. simpl snd.
    rewrite terms_cons, IH1. split; [done|].
    by replace (j + S k)%nat with (S j + k)%nat by lia.
Qed.

(** The frames a generator goes through: after [k >= 1] values it is
    suspended with [(F_{k-1}, F_k)]. *)
Lemma pull_gen_suspended (k j : nat) (end_ : Z) :
  pull k (GenSuspended end_ (F j) (F (S j)))
  = (terms (S j) k, GenSuspended end_ (F (j + k)) (F (S (j + k)))).
Proof.
  revert j. induction k as [|k IH]; intros j.
  - simpl. by rewrite Nat.add_0_r.
  - cbn [pull iter_next generator_Iterator gen_next].
    replace (F j + F (S j)) with (F (S (S j))) by (rewrite F_rec; lia).
    rewrite IH, terms_cons.
    by replace (j + S k)%nat with (S j + k)%nat by lia.
Qed.

Lemma pull_gen (k : nat) (end_ : Z) :
  pull (S k) (fibonacci_gen end_)
  = (terms 0 (S k), GenSuspended end_ (F k) (F (S k))).
Proof.
  unfold fibonacci_gen. cbn [pull iter_next generator_Iterator gen_next].
  change 0 with (F 0). change 1 with (F 1).
  by rewrite (pull_gen_suspended k 0), terms_cons.
Qed.

Lemma pull_gen_values (k : nat) (end_ : Z) :
  fst (pull k (fibonacci_gen end_)) = terms 0 k.
Proof. destruct k; [done|]. by rewrite pull_gen. Qed.

(** C2. For every integer [n >= 0], [fibonacci(n)] is a list of exactly
    [n] integers, the prefix of length [n] of the Fibonacci sequence: its
    first two elements, when present, are 1 and 1, and for every index [k]
    with [2 <= k < n] the [k]-th element is the sum of the two elements
    before it. *)
Theorem fibonacci_is_prefix (n : Z) :
  0 <= n ->
  let l := fibonacci n in
  Z.of_nat (length l) = n /\
  l = terms 0 (Z.to_nat n) /\
  (forall x, l !! 0%nat = Some x -> x = 1) /\
  (forall x, l !! 1%nat = Some x -> x = 1) /\
  (forall k : nat, 2 <= Z.of_nat k < n ->
     exists a b c,
       l !! (k - 2)%nat = Some a /\ l !! (k - 1)%nat = Some b /\
       l !! k = Some c /\ c = b + a).
Proof.
  intros Hn l. subst l.
  assert (Hm : n = Z.of_nat (Z.to_nat n)) by lia.
  revert Hm. generalize (Z.to_nat n) as m. intros m ->.
  rewrite fibonacci_terms.
  split; [by rewrite length_terms|]. split; [done|].
  split; [|split].
  - intros x Hx. destruct m; [done|]. by injection Hx as <-.
  - intros x Hx. destruct m as [|[|m]]; [done..|]. by injection Hx as <-.
  - intros k Hk. destruct k as [|[|k]]; [lia..|].
    exists (F (S k)), (F (S (S k))), (F (S (S (S k)))).
    replace (S (S k) - 2)%nat with k by lia.
    replace (S (S k) - 1)%nat with (S k) by lia.
    rewrite !lookup_terms by lia. simpl plus.
    repeat split.
Qed.

Lemma fibonacci_is_prefix_witness :
  0 <= 6 /\
  Z.of_nat (length (fibonacci 6)) = 6 /\
  (forall k : nat, 2 <= Z.of_nat k < 6 ->
     exists a b c,
       fibonacci 6 !! (k - 2)%nat = Some a /\
       fibonacci 6 !! (k - 1)%nat = Some b /\
       fibonacci 6 !! k = Some c /\ c = b + a).
Proof.
  split; [lia|].
  pose proof (fibonacci_is_prefix 6 ltac:(lia)) as (Hlen & _ & _ & _ & Hrec).
  split; [exact Hlen | exact Hrec].
Defined.

(** C3. The iterator agrees with the list-returning function: for every
    integer [n >= 0], collecting the first [n] values produced by a fresh
    [fibonacci_iter()] gives exactly [fibonacci(n)]; and
    [list(islice(fibonacci_iter(), 0, n))] is that list for every [n] that
    [islice] accepts as a bound ([n <= sys.maxsize]). *)
Theorem islice_iter_is_fibonacci (n : Z) :
  0 <= n ->
  fst (pull (Z.to_nat n) (iter init)) = fibonacci n /\
  forall maxsize, n <= maxsize ->
    list_islice maxsize (iter init) 0 n = Some (fibonacci n).
Proof.
  intros Hn.
  assert (Hpull : fst (pull (Z.to_nat n) (iter init)) = fibonacci n).
  { rewrite <- (Z2Nat.id n) at 2 by done. rewrite fibonacci_terms.
    by apply (pull_iter (Z.to_nat n) 0 init). }
  split; [done|]. intros maxsize Hmax. unfold list_islice.
  rewrite bool_decide_eq_true_2 by lia.
  cbn [Z.to_nat pull]. rewrite Z.sub_0_r. by f_equal.
Qed.

Lemma islice_iter_is_fibonacci_witness :
  0 <= 10 /\
  fst (pull (Z.to_nat 10) (iter init)) = fibonacci 10 /\
  forall maxsize, 10 <= maxsize ->
    list_islice maxsize (iter init) 0 10 = Some (fibonacci 10).
Proof.
  split; [lia | apply (islice_iter_is_fibonacci 10); lia].
Defined.

(** C4. The generator agrees with the list-returning function: for every
    integer [end] and every [n >= 0], the first [n] values yielded by
    [fibonacci_gen(end)] are exactly [fibonacci(n)]; so [n] values are
    yielded, and they are the same for any two arguments [end]. *)
Theorem gen_is_fibonacci (end_ : Z) (n : nat) :
  fst (pull n (fibonacci_gen end_)) = fibonacci (Z.of_nat n) /\
  length (fst (pull n (fibonacci_gen end_))) = n /\
  forall end', fst (pull n (fibonacci_gen end')) =
               fst (pull n (fibonacci_gen end_)).
Proof.
  rewrite fibonacci_terms, !pull_gen_values, length_terms.
  repeat split. intros end'. by rewrite pull_gen_values.
Qed.

(** The frame reached after [k] values yields [F_{k+1}] next. *)
Lemma gen_next_value (k : nat) (end_ : Z) :
  exists g', iter_next (snd (pull k (fibonacci_gen end_)))
             = Some (F (S k), g').
Proof.
  destruct k as [|k]; [eexists; reflexivity|].
  rewrite pull_gen. cbn [snd].
  exists (GenSuspended end_ (F (S k)) (F k + F (S k))).
  unfold iter_next, generator_Iterator, gen_next.
  rewrite F_rec. do 2 f_equal. lia.
Qed.

Lemma length_fibonacci (end_ : Z) :
  length (fibonacci end_) = Z.to_nat end_.
Proof.
  destruct (Z.le_gt_cases 0 end_) as [Hle|Hlt].
  - rewrite <- (Z2Nat.id end_) at 1 by done.
    by rewrite fibonacci_terms, length_terms.
  - unfold fibonacci, range. rewrite seqZ_nil by lia. simpl. lia.
Qed.

(** C8. [fibonacci_gen] never exhausts: for every integer [end] and every
    index [k >= 0], after [k] values have been taken the generator yields a
    further one (the next call does not raise [StopIteration]), the frame
    never finishes, and the value yielded at index [k] is the same
    whatever [end] is: the parameter is not read. *)
Theorem gen_never_exhausts (end_ : Z) (k : nat) :
  let g := snd (pull k (fibonacci_gen end_)) in
  g <> GenFinished /\
  (exists v g', iter_next g = Some (v, g') /\ v = F (S k) /\
     forall end', exists g'',
       iter_next (snd (pull k (fibonacci_gen end'))) = Some (v, g'')) /\
  length (fst (pull (S k) (fibonacci_gen end_))) = S k.
Proof.
  pose proof (gen_next_value k) as Hnext.
  cbv zeta. split; [|split].
  - destruct (Hnext end_) as [g' Hg']. intros Heq. by rewrite Heq in Hg'.
  - destruct (Hnext end_) as [g' Hg']. by exists (F (S k)), g'.
  - by rewrite pull_gen_values, length_terms.
Qed.

(** C9. State invariant of [fibonacci_iter]: every state reachable from a
    fresh instance by calls to [next] holds [(previous, current) =
    (F_k, F_{k+1})] for some [k >= 0]; a call to [next] takes a state
    holding the pair of index [k] to one holding the pair of index [k+1],
    and returns the value [current] had before the call. *)
Theorem iter_invariant (self : fibonacci_iter) :
  reachable self ->
  (exists k, holds_pair k self) /\
  (forall k, holds_pair k self -> holds_pair (S k) (snd (next self))) /\
  fst (next self) = self_current self /\
  reachable (snd (next self)).
Proof.
  intros Hreach.
  assert (Hstep : forall s k, holds_pair k s ->
                              holds_pair (S k) (snd (next s))).
  { intros [p c] k Hk. unfold holds_pair in *.
    cbn [next snd self_previous self_current] in *.
    injection Hk as -> ->. by rewrite F_rec. }
  split; [|split; [apply Hstep|split; [done|by constructor]]].
  induction Hreach as [|s _ [k Hk]].
  - by exists 0%nat.
  - exists (S k). by apply Hstep.
Qed.

Lemma iter_invariant_witness :
  reachable (snd (next init)) /\
  exists k, holds_pair k (snd (next init)).
Proof.
  split; [apply reachable_next, reachable_init|].
  apply (iter_invariant (snd (next init))).
  apply reachable_next, reachable_init.
Defined.

End FibonacciFacts.

(** ** Cardinality *)

Section CardinalityFacts.
Context {T : Type} `{Countable T}.

(** [set(xs)] holds exactly the elements of [xs]. *)
Lemma set_elements (xs : list T) : Card.set xs = list_to_set xs.
Proof.
  unfold Card.set.
  enough (Hgen : forall s : gset T,
             foldl (fun s x => {[x]} ∪ s) s xs = list_to_set xs ∪ s).
  { by rewrite Hgen, (right_id_L ∅ (∪)). }
  induction xs as [|x xs IH]; intros s; simpl.
  - by rewrite (left_id_L ∅ (∪)).
  - by rewrite IH, (assoc_L (∪)), (comm_L (∪) _ {[x]}).
Qed.

Lemma elem_of_set (xs : list T) (x : T) : x ∈ Card.set xs <-> x ∈ xs.
Proof. rewrite set_elements. apply elem_of_list_to_set. Qed.

Lemma size_set (xs : list T) :
  size (Card.set xs) = Card.distinct_count_spec xs.
Proof.
  rewrite set_elements. induction xs as [|x xs IH]; simpl.
  - change (size (∅ : gset T) = 0%nat). apply size_empty.
  - destruct (decide (x ∈ xs)) as [Hin|Hnin].
    + rewrite <- IH. f_equal. apply subseteq_union_1_L.
      apply singleton_subseteq_l. by apply elem_of_list_to_set.
    + rewrite size_union, size_singleton, IH; [done|].
      apply disjoint_singleton_l. by rewrite elem_of_list_to_set.
Qed.
End CardinalityFacts.

(** C5. [len(set(xs))] is the number of distinct elements of [xs], for every
    finite list [xs] of (hashable) values; and for
    [A = set([1, 1, 2, 3, 5])] the cell prints [card(A) = 4]. *)
Theorem card_counts_distinct {T : Type} `{Countable T} (xs : list T) :
  Card.len (Card.set xs) = Z.of_nat (Card.distinct_count_spec xs) /\
  (forall x, x ∈ Card.set xs <-> x ∈ xs) /\
  Card.len Card.A = 4 /\
  Card.printed_card = "card(A) = 4"%string.
Proof.
  split; [|split; [|split]].
  - unfold Card.len. by rewrite size_set.
  - intros x. apply elem_of_set.
  - unfold Card.A, Card.len. by rewrite size_set.
  - unfold Card.printed_card, Card.A, Card.len. rewrite size_set.
    vm_compute. reflexivity.
Qed.

(** ** Richardson-Lucy *)

Section RichardsonLucyFacts.
Import RL.
Context {L : Library}.
Local Open Scope py_scope.

(** *** Exceptions pass through every construct of the model *)

Lemma propagated_app {A} (o : outcome A) (t1 t2 : list event) :
  Forall returned t1 -> propagated o t2 -> propagated o (t1 ++ t2).
Proof.
  intros H1 H2. destruct o as [a|e|]; simpl in *.
  - by apply Forall_app.
  - destruct H2 as (t0 & f & -> & H0). exists (t1 ++ t0), f.
    split; [by rewrite (assoc_L (++))|by apply Forall_app].
  - by apply Forall_app.
Qed.

Lemma transparent_ret {A} (a : A) : transparent (ret a).
Proof. intros s. exists []. simpl. by rewrite (right_id_L [] (++)). Qed.

Lemma transparent_bind {A B} (m : M A) (k : A -> M B) :
  transparent m -> (forall a, transparent (k a)) -> transparent (bind m k).
Proof.
  intros Hm Hk s. destruct (Hm s) as (t1 & E1 & P1). unfold bind.
  destruct (m s) as [[a|e|] s1]; simpl in E1, P1.
  - destruct (Hk a s1) as (t2 & E2 & P2). exists (t1 ++ t2). split.
    + by rewrite E2, E1, (assoc_L (++)).
    + by apply propagated_app.
  - by exists t1.
  - by exists t1.
Qed.

Lemma transparent_call {A} (f : libcall) (r : exn + A) :
  transparent (call f r).
Proof.
  intros s. destruct r as [e|a]; simpl.
  - exists [Threw f e]. split; [done|]. by exists [], f.
  - exists [Returned f]. split; [done|]. by repeat constructor.
Qed.

Lemma transparent_read (r : aref) : transparent (read r).
Proof.
  intros s. exists []. unfold read.
  destruct (value s r); simpl; by rewrite (right_id_L [] (++)).
Qed.

Lemma transparent_new (v : ndarray) : transparent (new v).
Proof. intros s. exists []. simpl. by rewrite (right_id_L [] (++)). Qed.

Lemma transparent_store (l : loc) (v : ndarray) : transparent (store l v).
Proof.
  intros s. exists []. unfold store.
  destruct (heap s !! l); simpl; by rewrite (right_id_L [] (++)).
Qed.

Lemma transparent_for_each (idx : list Z) (body : Z -> M unit) :
  (forall i, transparent (body i)) -> transparent (for_each idx body).
Proof.
  intros Hbody. induction idx as [|i idx IH]; simpl.
  - apply transparent_ret.
  - by apply transparent_bind.
Qed.

Ltac transparency :=
  repeat first
    [ apply transparent_ret | apply transparent_call | apply transparent_read
    | apply transparent_new | apply transparent_store
    | apply transparent_bind; [|intros ?]
    | apply transparent_for_each; intros ? ].

Lemma transparent_convolve (image kernel : aref) :
  transparent (convolve image kernel).
Proof. unfold convolve. transparency. Qed.

Lemma transparent_RL_Deconvolve (image psf : aref) (n_iter : Z) :
  transparent (RL_Deconvolve image psf n_iter).
Proof.
  unfold RL_Deconvolve, shape_of, ones, scalar_mul, rot90, for_range.
  transparency.
Qed.

(** With such a record, the outcome is an exception exactly when a call of
    the record threw it. *)
Lemma propagated_raised {A} (o : outcome A) (t : list event) (e : exn) :
  propagated o t -> (o = Raised e <-> exists f, Threw f e ∈ t).
Proof.
  intros Hp. split.
  - intros ->. destruct Hp as (t0 & f & -> & _). exists f.
    apply elem_of_app. right. by apply list_elem_of_singleton.
  - intros [f Hin].
    assert (Hno : forall t0, Forall returned t0 -> Threw f e ∈ t0 -> False).
    { intros t0 H0 Hin0. rewrite Forall_forall in H0.
      exact (H0 _ Hin0). }
    destruct o as [a|e'|]; simpl in Hp.
    + destruct (Hno _ Hp Hin).
    + destruct Hp as (t0 & f' & -> & H0).
      apply elem_of_app in Hin as [Hin|Hin]; [destruct (Hno _ H0 Hin)|].
      apply list_elem_of_singleton in Hin. by injection Hin as _ ->.
    + destruct (Hno _ Hp Hin).
Qed.

(** *** Buffers that a computation leaves alone *)

Lemma fresh_unused (h : gmap loc ndarray) : h !! fresh (dom h) = None.
Proof. apply not_elem_of_dom, is_fresh. Qed.

Lemma keeps_ret h0 {A} (a : A) (Q : A -> Prop) : Q a -> keeps h0 (ret a) Q.
Proof. intros HQ s Hs. split; [done|]. simpl. by intros ? [= <-]. Qed.

Lemma keeps_bind h0 {A B} (m : M A) (k : A -> M B) Q R :
  keeps h0 m Q -> (forall a, Q a -> keeps h0 (k a) R) ->
  keeps h0 (bind m k) R.
Proof.
  intros Hm Hk s Hs. destruct (Hm s Hs) as [H1 HQ]. unfold bind.
  destruct (m s) as [[a|e|] s1]; simpl in H1, HQ.
  - by apply Hk; [apply HQ|].
  - by split.
  - by split.
Qed.

Lemma keeps_weaken h0 {A} (m : M A) (Q R : A -> Prop) :
  keeps h0 m Q -> (forall a, Q a -> R a) -> keeps h0 m R.
Proof.
  intros Hm HQR s Hs. destruct (Hm s Hs) as [H1 HQ]. split; [done|].
  intros a Ha. by apply HQR, HQ.
Qed.

Lemma keeps_call h0 {A} (f : libcall) (r : exn + A) :
  keeps h0 (call f r) (fun _ => True).
Proof. intros s Hs. by destruct r. Qed.

Lemma keeps_read h0 (r : aref) : keeps h0 (read r) (fun _ => True).
Proof. intros s Hs. unfold read. by destruct (value s r). Qed.

(** A new array never takes a buffer that is in use. *)
Lemma keeps_new h0 (v : ndarray) :
  keeps h0 (new v) (fun r => h0 !! base r = None).
Proof.
  intros s Hs. pose proof (fresh_unused (heap s)) as Hfresh.
  assert (H0 : h0 !! fresh (dom (heap s)) = None)
    by exact (lookup_weaken_None _ _ _ Hfresh Hs).
  split; simpl.
  - by apply insert_subseteq_r.
  - by intros ? [= <-].
Qed.

Lemma keeps_store h0 (l : loc) (v : ndarray) :
  h0 !! l = None -> keeps h0 (store l v) (fun _ => True).
Proof.
  intros Hl s Hs. unfold store. destruct (heap s !! l); [|done].
  split; [|done]. simpl. by apply insert_subseteq_r.
Qed.

Lemma keeps_for_each h0 (idx : list Z) (body : Z -> M unit) :
  (forall i, keeps h0 (body i) (fun _ => True)) ->
  keeps h0 (for_each idx body) (fun _ => True).
Proof.
  intros Hbody. induction idx as [|i idx IH]; simpl.
  - by apply keeps_ret.
  - eapply keeps_bind; [apply Hbody|]. by intros.
Qed.

(** A step that produces a new array from calls and reads. *)
Ltac keeping :=
  repeat first
    [ apply keeps_new
    | eapply keeps_bind; [first [apply keeps_read | apply keeps_call]|];
      intros ? _ ].

Lemma keeps_convolve h0 (image kernel : aref) :
  keeps h0 (convolve image kernel) (fun r => h0 !! base r = None).
Proof. unfold convolve. keeping. Qed.

Lemma keeps_divide h0 (a b : aref) :
  keeps h0 (divide a b) (fun r => h0 !! base r = None).
Proof. unfold divide. keeping. Qed.

Lemma keeps_scalar_mul h0 (c : Q) (a : aref) :
  keeps h0 (scalar_mul c a) (fun r => h0 !! base r = None).
Proof. unfold scalar_mul. keeping. Qed.

Lemma keeps_ones h0 (shape : dims) :
  keeps h0 (ones shape) (fun r => h0 !! base r = None).
Proof. unfold ones. keeping. Qed.

Lemma keeps_imul h0 (l : loc) (b : aref) :
  h0 !! l = None -> keeps h0 (imul l b) (fun _ => True).
Proof. intros Hl. unfold imul. keeping. by apply keeps_store. Qed.

Lemma keeps_loop_body h0 (image psf psf_rot : aref) (x_hat : loc) i :
  h0 !! x_hat = None ->
  keeps h0 (loop_body image psf psf_rot x_hat i) (fun _ => True).
Proof.
  intros Hl. unfold loop_body.
  eapply keeps_bind; [apply keeps_convolve|]. intros c _.
  eapply keeps_bind; [apply keeps_divide|]. intros q _.
  eapply keeps_bind; [apply keeps_convolve|]. intros r _.
  by apply keeps_imul.
Qed.

Lemma keeps_RL_Deconvolve h0 (image psf : aref) (n_iter : Z) :
  keeps h0 (RL_Deconvolve image psf n_iter)
        (fun x_hat => h0 !! base x_hat = None).
Proof.
  unfold RL_Deconvolve, shape_of, rot90.
  eapply keeps_bind.
  { eapply keeps_bind; [apply keeps_read|]. intros v _.
    by apply (keeps_ret _ _ (fun _ => True)). }
  intros shape _.
  eapply keeps_bind; [apply keeps_ones|]. intros o _.
  eapply keeps_bind; [apply keeps_scalar_mul|]. intros x_hat Hx.
  eapply keeps_bind.
  { eapply keeps_bind; [apply keeps_read|]. intros v _.
    eapply keeps_bind; [apply keeps_call|]. intros rot _.
    by apply (keeps_ret _ _ (fun _ => True)). }
  intros psf_rot _.
  eapply keeps_bind.
  { apply keeps_for_each. intros i. by apply keeps_loop_body. }
  intros _ _. by apply keeps_ret.
Qed.

(** *** Counting the update steps *)

Lemma updates_app (t1 t2 : list event) :
  updates (t1 ++ t2) = (updates t1 + updates t2)%nat.
Proof. induction t1 as [|ev t1 IH]; simpl; [done|]. rewrite IH. lia. Qed.

Lemma steps_bind (k1 k2 : nat) {A B} (m : M A) (k : A -> M B) :
  steps k1 m -> (forall a, steps k2 (k a)) -> steps (k1 + k2) (bind m k).
Proof.
  intros Hm Hk s. destruct (Hm s) as (t1 & E1 & B1 & D1). unfold bind.
  destruct (m s) as [[a|e|] s1]; simpl in E1, D1.
  - destruct (Hk a s1) as (t2 & E2 & B2 & D2). exists (t1 ++ t2).
    rewrite updates_app, (D1 a eq_refl). split; [|split].
    + by rewrite E2, E1, (assoc_L (++)).
    + lia.
    + intros b Hb. by rewrite (D2 b Hb).
  - exists t1. split; [done|]. split; [lia|done].
  - exists t1. split; [done|]. split; [lia|done].
Qed.

(** A computation that does not touch the record of calls. *)
Lemma steps_silent {A} (m : M A) :
  (forall s, trace (snd (m s)) = trace s) -> steps 0 m.
Proof.
  intros Hm s. exists []. by rewrite Hm, (right_id_L [] (++)).
Qed.

Lemma steps_ret {A} (a : A) : steps 0 (ret a).
Proof. by apply steps_silent. Qed.

Lemma steps_read (r : aref) : steps 0 (read r).
Proof.
  apply steps_silent. intros s. unfold read. by destruct (value s r).
Qed.

Lemma steps_new (v : ndarray) : steps 0 (new v).
Proof. by apply steps_silent. Qed.

Lemma steps_store (l : loc) (v : ndarray) : steps 0 (store l v).
Proof.
  apply steps_silent. intros s. unfold store. by destruct (heap s !! l).
Qed.

Lemma steps_call {A} (f : libcall) (r : exn + A) :
  steps (if decide (f = NpIMul) then 1 else 0) (call f r).
Proof.
  intros s. destruct r as [e|a]; simpl.
  - exists [Threw f e]. split; [done|].
    split; [|done]. destruct (decide (f = NpIMul)); cbn; lia.
  - exists [Returned f]. split; [done|].
    destruct f; (split; [cbv; lia | intros; reflexivity]).
Qed.

Lemma steps_for_each (idx : list Z) (body : Z -> M unit) :
  (forall i, steps 1 (body i)) -> steps (length idx) (for_each idx body).
Proof.
  intros Hbody. induction idx as [|i idx IH]; simpl.
  - apply steps_ret.
  - by apply (steps_bind 1 (length idx)).
Qed.

Ltac silence :=
  repeat first
    [ apply steps_ret | apply steps_read | apply steps_new
    | apply steps_store
    | apply (steps_call NpOnes) | apply (steps_call NpScalarMul)
    | apply (steps_call NpRot90) | apply (steps_call NpDivide)
    | apply (steps_call ConvolveFft)
    | apply (steps_bind 0 0); [|intros ?] ].

Lemma steps_convolve (image kernel : aref) : steps 0 (convolve image kernel).
Proof. unfold convolve. silence. Qed.

Lemma steps_divide (a b : aref) : steps 0 (divide a b).
Proof. unfold divide. silence. Qed.

Lemma steps_imul (l : loc) (b : aref) : steps 1 (imul l b).
Proof.
  unfold imul.
  apply (steps_bind 0 1); [apply steps_read|intros va].
  apply (steps_bind 0 1); [apply steps_read|intros vb].
  apply (steps_bind 1 0); [apply (steps_call NpIMul)|intros v].
  apply steps_store.
Qed.

(** One round of the loop is one update step. *)
Lemma steps_loop_body (image psf psf_rot : aref) (x_hat : loc) i :
  steps 1 (loop_body image psf psf_rot x_hat i).
Proof.
  unfold loop_body.
  apply (steps_bind 0 1); [apply steps_convolve|intros c].
  apply (steps_bind 0 1); [apply steps_divide|intros q].
  apply (steps_bind 0 1); [apply steps_convolve|intros r].
  apply steps_imul.
Qed.

Lemma steps_RL_Deconvolve (image psf : aref) (n_iter : Z) :
  steps (Z.to_nat n_iter) (RL_Deconvolve image psf n_iter).
Proof.
  unfold RL_Deconvolve, shape_of, ones, scalar_mul, rot90, for_range.
  replace (Z.to_nat n_iter)
    with (0 + (0 + (0 + (0 + (length (range n_iter) + 0)))))%nat
    by (unfold range; rewrite length_seqZ; lia).
  apply steps_bind; [silence|intros shape].
  apply steps_bind; [silence|intros o].
  apply steps_bind; [silence|intros x_hat].
  apply steps_bind; [silence|intros psf_rot].
  apply steps_bind; [|intros _; apply steps_ret].
  apply steps_for_each. intros i. apply steps_loop_body.
Qed.

(** *** Running the program on arrays that exist *)

Lemma extends_refl (s : state) : extends s s.
Proof. by intros r v. Qed.

Lemma extends_trans (s1 s2 s3 : state) :
  extends s1 s2 -> extends s2 s3 -> extends s1 s3.
Proof. intros H12 H23 r v Hv. by apply H23, H12. Qed.

Lemma live_not_unused (s : state) (r : aref) (v : ndarray) (l : loc) :
  value s r = Some v -> heap s !! l = None -> base r <> l.
Proof. unfold value. intros Hv Hl Heq. by rewrite Heq, Hl in Hv. Qed.

Lemma read_live (s : state) (r : aref) (v : ndarray) :
  value s r = Some v -> read r s = (Done v, s).
Proof. intros Hv. unfold read. by rewrite Hv. Qed.

(** A call whose result becomes a new array. *)
Lemma call_new_run (f : libcall) (res : exn + ndarray) (s : state) :
  match res with
  | inr c => exists l s',
      bind (call f res) new s = (Done (whole l), s') /\
      heap s !! l = None /\ value s' (whole l) = Some c /\ extends s s'
  | inl e => exists s', bind (call f res) new s = (Raised e, s')
  end.
Proof.
  destruct res as [e|c].
  - eexists. reflexivity.
  - exists (fresh (dom (heap s))). eexists. split; [reflexivity|].
    split; [apply fresh_unused|]. split.
    + unfold value. simpl. by rewrite lookup_insert_eq.
    + intros r v. unfold value. simpl. intros Hv.
      rewrite lookup_insert_ne; [done|]. intros Heq.
      by rewrite <- Heq, fresh_unused in Hv.
Qed.

Lemma binary_run (f : libcall) (g : ndarray -> ndarray -> exn + ndarray)
    (a b : aref) (s : state) (va vb : ndarray) :
  value s a = Some va -> value s b = Some vb ->
  (x <- read a;; y <- read b;; v <- call f (g x y);; new v) s
  = bind (call f (g va vb)) new s.
Proof.
  intros Ha Hb. unfold bind at 1. rewrite (read_live _ _ _ Ha).
  unfold bind at 1. by rewrite (read_live _ _ _ Hb).
Qed.

Lemma convolve_run (a k : aref) (s : state) (va vk : ndarray) :
  value s a = Some va -> value s k = Some vk ->
  match convolve_fft va vk convolve_kwargs with
  | inr c => exists l s',
      convolve a k s = (Done (whole l), s') /\
      heap s !! l = None /\ value s' (whole l) = Some c /\ extends s s'
  | inl e => exists s', convolve a k s = (Raised e, s')
  end.
Proof.
  intros Ha Hk. unfold convolve.
  rewrite (binary_run ConvolveFft
             (fun x y => convolve_fft x y convolve_kwargs) _ _ _ _ _ Ha Hk).
  apply call_new_run.
Qed.

Lemma divide_run (a b : aref) (s : state) (va vb : ndarray) :
  value s a = Some va -> value s b = Some vb ->
  match np_divide va vb with
  | inr c => exists l s',
      divide a b s = (Done (whole l), s') /\
      heap s !! l = None /\ value s' (whole l) = Some c /\ extends s s'
  | inl e => exists s', divide a b s = (Raised e, s')
  end.
Proof.
  intros Ha Hb. unfold divide.
  rewrite (binary_run NpDivide np_divide _ _ _ _ _ Ha Hb).
  apply call_new_run.
Qed.

(** The in-place product changes the buffer at [l] and no other. *)
Lemma imul_run (l : loc) (b : aref) (s : state) (x vb : ndarray) :
  value s (whole l) = Some x -> value s b = Some vb ->
  match np_imul x vb with
  | inr x' => exists s',
      imul l b s = (Done tt, s') /\ value s' (whole l) = Some x' /\
      forall r v, base r <> l -> value s r = Some v -> value s' r = Some v
  | inl e => exists s', imul l b s = (Raised e, s')
  end.
Proof.
  intros Hx Hb.
  assert (Hrun : imul l b s
                 = bind (call NpIMul (np_imul x vb)) (store l) s).
  { unfold imul. unfold bind at 1. rewrite (read_live _ _ _ Hx).
    unfold bind at 1. by rewrite (read_live _ _ _ Hb). }
  rewrite Hrun. unfold bind, call, store.
  destruct (np_imul x vb) as [e|x'].
  - eexists. reflexivity.
  - simpl heap. unfold value in Hx. simpl in Hx.
    destruct (heap s !! l) as [x0|] eqn:Hl; [|done].
    eexists. split; [reflexivity|]. split.
    + unfold value. simpl. by rewrite lookup_insert_eq.
    + intros r v Hr. unfold value. simpl. by rewrite lookup_insert_ne.
Qed.

(** Running the first part of a sequence whose result is known. *)
Ltac step H := unfold bind at 1; rewrite H; cbv beta iota.

(** One round of the loop computes one correction of the estimate. *)
Lemma loop_body_run (image psf psf_rot : aref) (l : loc) (i : Z)
    (s : state) (y H H_rot x : ndarray) :
  value s image = Some y -> value s psf = Some H ->
  value s psf_rot = Some H_rot -> value s (whole l) = Some x ->
  base image <> l -> base psf <> l -> base psf_rot <> l ->
  match correction_spec y H H_rot x with
  | inr x' => exists s',
      loop_body image psf psf_rot l i s = (Done tt, s') /\
      value s' image = Some y /\ value s' psf = Some H /\
      value s' psf_rot = Some H_rot /\ value s' (whole l) = Some x'
  | inl e => exists s', loop_body image psf psf_rot l i s = (Raised e, s')
  end.
Proof.
  intros Hy HH Hrot Hx Ni Np Nr. unfold correction_spec.
  pose proof (convolve_run (whole l) psf s x H Hx HH) as Hc.
  destruct (convolve_fft x H convolve_kwargs) as [e|c]; cbn [and_then].
  { destruct Hc as [s' Hc]. exists s'. unfold loop_body. by step Hc. }
  destruct Hc as (l1 & s1 & Hc & _ & Hv1 & E1).
  pose proof (divide_run image (whole l1) s1 y c (E1 _ _ Hy) Hv1) as Hd.
  destruct (np_divide y c) as [e|q]; cbn [and_then].
  { destruct Hd as [s' Hd]. exists s'. unfold loop_body.
    step Hc. by step Hd. }
  destruct Hd as (l2 & s2 & Hd & _ & Hv2 & E2).
  pose proof (convolve_run (whole l2) psf_rot s2 q H_rot Hv2
                (E2 _ _ (E1 _ _ Hrot))) as Hc2.
  destruct (convolve_fft q H_rot convolve_kwargs) as [e|r]; cbn [and_then].
  { destruct Hc2 as [s' Hc2]. exists s'. unfold loop_body.
    step Hc. step Hd. by step Hc2. }
  destruct Hc2 as (l3 & s3 & Hc2 & _ & Hv3 & E3).
  assert (E : extends s s3)
    by (eapply extends_trans; [|exact E3];
        eapply extends_trans; [exact E1|exact E2]).
  pose proof (imul_run l (whole l3) s3 x r (E _ _ Hx) Hv3) as Hm.
  destruct (np_imul x r) as [e|x'].
  { destruct Hm as [s' Hm]. exists s'. unfold loop_body.
    step Hc. step Hd. step Hc2. exact Hm. }
  destruct Hm as (s' & Hm & Hx' & Hothers). exists s'. split.
  { unfold loop_body. step Hc. step Hd. step Hc2. exact Hm. }
  repeat split; [apply Hothers; auto..|exact Hx'].
Qed.

(** The loop computes as many corrections as it has indices. *)
Lemma for_each_run (image psf psf_rot : aref) (l : loc)
    (y H H_rot : ndarray) (idx : list Z) :
  base image <> l -> base psf <> l -> base psf_rot <> l ->
  forall (s : state) (x : ndarray),
  value s image = Some y -> value s psf = Some H ->
  value s psf_rot = Some H_rot -> value s (whole l) = Some x ->
  match corrections_spec (length idx) y H H_rot x with
  | inr x' => exists s',
      for_each idx (loop_body image psf psf_rot l) s = (Done tt, s') /\
      value s' (whole l) = Some x'
  | inl e => exists s',
      for_each idx (loop_body image psf psf_rot l) s = (Raised e, s')
  end.
Proof.
  intros Ni Np Nr. induction idx as [|i idx IH]; intros s x Hy HH Hrot Hx.
  - simpl. by exists s.
  - cbn [length corrections_spec for_each].
    pose proof (loop_body_run image psf psf_rot l i s y H H_rot x
                  Hy HH Hrot Hx Ni Np Nr) as Hb.
    destruct (correction_spec y H H_rot x) as [e|x1]; cbn [and_then].
    { destruct Hb as [s' Hb]. exists s'. by step Hb. }
    destruct Hb as (s1 & Hb & Hy1 & HH1 & Hrot1 & Hx1).
    specialize (IH s1 x1 Hy1 HH1 Hrot1 Hx1).
    destruct (corrections_spec (length idx) y H H_rot x1) as [e|x'].
    + destruct IH as [s' IH]. exists s'. by step Hb.
    + destruct IH as (s' & IH & Hx'). exists s'. split; [by step Hb|done].
Qed.

Lemma shape_of_run (image : aref) (s : state) (y : ndarray) :
  value s image = Some y -> shape_of image s = (Done (np_shape y), s).
Proof.
  intros Hy. unfold shape_of. step (read_live _ _ _ Hy). reflexivity.
Qed.

Lemma ones_run (shape : dims) (s : state) :
  match np_ones shape with
  | inr v => exists l s',
      ones shape s = (Done (whole l), s') /\
      heap s !! l = None /\ value s' (whole l) = Some v /\ extends s s'
  | inl e => exists s', ones shape s = (Raised e, s')
  end.
Proof. unfold ones. apply call_new_run. Qed.

Lemma scalar_mul_run (c : Q) (a : aref) (s : state) (va : ndarray) :
  value s a = Some va ->
  match np_scalar_mul c va with
  | inr v => exists l s',
      scalar_mul c a s = (Done (whole l), s') /\
      heap s !! l = None /\ value s' (whole l) = Some v /\ extends s s'
  | inl e => exists s', scalar_mul c a s = (Raised e, s')
  end.
Proof.
  intros Ha.
  assert (Hrun : scalar_mul c a s
                 = bind (call NpScalarMul (np_scalar_mul c va)) new s)
    by (unfold scalar_mul; step (read_live _ _ _ Ha); reflexivity).
  rewrite Hrun. apply call_new_run.
Qed.

(** The rotated array is a view: it reads the buffer of [m]. *)
Lemma rot90_run (m : aref) (k : Z) (s : state) (vm : ndarray) :
  value s m = Some vm ->
  match np_rot90 vm k with
  | inr rot => exists m_rot s',
      rot90 m k s = (Done m_rot, s') /\ base m_rot = base m /\
      value s' m_rot = Some (rot vm) /\ extends s s'
  | inl e => exists s', rot90 m k s = (Raised e, s')
  end.
Proof.
  intros Hm.
  assert (Hrun : rot90 m k s
                 = bind (call NpRot90 (np_rot90 vm k))
                     (fun rot => ret {| base := base m;
                                        see := fun b => rot (see m b) |}) s)
    by (unfold rot90; step (read_live _ _ _ Hm); reflexivity).
  rewrite Hrun. destruct (np_rot90 vm k) as [e|rot].
  - eexists. reflexivity.
  - eexists. eexists. split; [reflexivity|]. split; [done|].
    split; [|by intros r v Hv].
    unfold value in *. simpl.
    destruct (heap s !! base m) as [b|]; simpl in *; [|done].
    by injection Hm as <-.
Qed.

(** The program computes the method: on arrays that exist, it ends as the
    method does, and the array it returns holds the method's estimate. *)
Lemma RL_Deconvolve_run (image psf : aref) (n_iter : Z) (s : state)
    (y H : ndarray) :
  value s image = Some y -> value s psf = Some H ->
  match richardson_lucy_spec y H n_iter with
  | inr x => exists x_hat s',
      RL_Deconvolve image psf n_iter s = (Done x_hat, s') /\
      value s' x_hat = Some x
  | inl e => exists s', RL_Deconvolve image psf n_iter s = (Raised e, s')
  end.
Proof.
  intros Hy HH. unfold richardson_lucy_spec.
  pose proof (shape_of_run image s y Hy) as Hshape.
  pose proof (ones_run (np_shape y) s) as Hones.
  destruct (np_ones (np_shape y)) as [e|o]; cbn [and_then].
  { destruct Hones as [s' Hones]. exists s'. unfold RL_Deconvolve.
    step Hshape. by step Hones. }
  destruct Hones as (lo & s1 & Hones & _ & Ho & E1).
  pose proof (scalar_mul_run 0.5%Q (whole lo) s1 o Ho) as Hmul.
  destruct (np_scalar_mul 0.5%Q o) as [e|x0]; cbn [and_then].
  { destruct Hmul as [s' Hmul]. exists s'. unfold RL_Deconvolve.
    step Hshape. step Hones. by step Hmul. }
  destruct Hmul as (l & s2 & Hmul & Hl & Hx0 & E2).
  assert (Hy2 : value s2 image = Some y) by (apply E2, E1, Hy).
  assert (HH2 : value s2 psf = Some H) by (apply E2, E1, HH).
  assert (Ni : base image <> l)
    by (apply (live_not_unused s1 image y); [apply E1, Hy|done]).
  assert (Np : base psf <> l)
    by (apply (live_not_unused s1 psf H); [apply E1, HH|done]).
  pose proof (rot90_run psf 2 s2 H HH2) as Hrot.
  destruct (np_rot90 H 2) as [e|rot]; cbn [and_then].
  { destruct Hrot as [s' Hrot]. exists s'. unfold RL_Deconvolve.
    step Hshape. step Hones. step Hmul. by step Hrot. }
  destruct Hrot as (psf_rot & s3 & Hrot & Hbase & Hvrot & E3).
  assert (Nr : base psf_rot <> l) by (by rewrite Hbase).
  pose proof (for_each_run image psf psf_rot l y H (rot H)
                (range n_iter) Ni Np Nr s3 x0
                (E3 _ _ Hy2) (E3 _ _ HH2) Hvrot (E3 _ _ Hx0)) as Hloop.
  unfold range in Hloop at 1. rewrite length_seqZ in Hloop.
  fold (for_range n_iter (loop_body image psf psf_rot l)) in Hloop.
  destruct (corrections_spec (Z.to_nat n_iter) y H (rot H) x0) as [e|x].
  - destruct Hloop as [s' Hloop]. exists s'. unfold RL_Deconvolve.
    step Hshape. step Hones. step Hmul. step Hrot.
    change (base (whole l)) with l. by step Hloop.
  - destruct Hloop as (s' & Hloop & Hx). exists (whole l), s'. split; [|done].
    unfold RL_Deconvolve.
    step Hshape. step Hones. step Hmul. step Hrot.
    change (base (whole l)) with l. by step Hloop.
Qed.

(** *** The calls of a run that returns *)

Lemma logs_eq (t t' : list event) {A} (m : M A) :
  t = t' -> logs t m -> logs t' m.
Proof. by intros ->. Qed.

Lemma logs_silent {A} (m : M A) :
  (forall s, trace (snd (m s)) = trace s) -> logs [] m.
Proof.
  intros Hm s a s' Hrun. specialize (Hm s). rewrite Hrun in Hm.
  simpl in Hm. by rewrite Hm, (right_id_L [] (++)).
Qed.

Lemma logs_ret {A} (a : A) : logs [] (ret a).
Proof. by apply logs_silent. Qed.

Lemma logs_read (r : aref) : logs [] (read r).
Proof.
  apply logs_silent. intros s. unfold read. by destruct (value s r).
Qed.

Lemma logs_new (v : ndarray) : logs [] (new v).
Proof. by apply logs_silent. Qed.

Lemma logs_store (l : loc) (v : ndarray) : logs [] (store l v).
Proof.
  apply logs_silent. intros s. unfold store. by destruct (heap s !! l).
Qed.

Lemma logs_call {A} (f : libcall) (r : exn + A) :
  logs [Returned f] (call f r).
Proof.
  intros s a s' Hrun. unfold call in Hrun.
  destruct r as [e|a0]; [done|]. by injection Hrun as _ <-.
Qed.

Lemma logs_bind (t1 t2 : list event) {A B} (m : M A) (k : A -> M B) :
  logs t1 m -> (forall a, logs t2 (k a)) -> logs (t1 ++ t2) (bind m k).
Proof.
  intros Hm Hk s b s' Hrun. unfold bind in Hrun.
  destruct (m s) as [[a|e|] s1] eqn:Hms; [|done..].
  rewrite (Hk a s1 b s' Hrun), (Hm s a s1 Hms). by rewrite (assoc_L (++)).
Qed.

Lemma logs_for_each (idx : list Z) (body : Z -> M unit) :
  (forall i, logs round_calls (body i)) ->
  logs (rounds (length idx)) (for_each idx body).
Proof.
  intros Hbody. induction idx as [|i idx IH]; cbn [for_each length rounds].
  - apply logs_ret.
  - by apply logs_bind.
Qed.

(** A step that reads its arguments, makes one call and keeps the result in
    a new array. *)
Ltac logging f :=
  repeat first
    [ apply logs_new | apply logs_ret | apply logs_store
    | apply (logs_bind [] [Returned f]); [apply logs_read|intros ?]
    | apply (logs_bind [Returned f] []); [apply logs_call|intros ?] ].

Lemma logs_convolve (image kernel : aref) :
  logs [Returned ConvolveFft] (convolve image kernel).
Proof. unfold convolve. logging ConvolveFft. Qed.

Lemma logs_divide (a b : aref) : logs [Returned NpDivide] (divide a b).
Proof. unfold divide. logging NpDivide. Qed.

Lemma logs_imul (l : loc) (b : aref) : logs [Returned NpIMul] (imul l b).
Proof. unfold imul. logging NpIMul. Qed.

Lemma logs_loop_body (image psf psf_rot : aref) (x_hat : loc) i :
  logs round_calls (loop_body image psf psf_rot x_hat i).
Proof.
  unfold loop_body, round_calls.
  apply (logs_bind [_] [_; _; _]); [apply logs_convolve|intros c].
  apply (logs_bind [_] [_; _]); [apply logs_divide|intros q].
  apply (logs_bind [_] [_]); [apply logs_convolve|intros r].
  apply logs_imul.
Qed.

Lemma logs_RL_Deconvolve (image psf : aref) (n_iter : Z) :
  logs (setup_calls ++ rounds (Z.to_nat n_iter))
       (RL_Deconvolve image psf n_iter).
Proof.
  unfold RL_Deconvolve, setup_calls.
  apply (logs_bind [] (_ :: _)).
  { unfold shape_of. apply (logs_bind [] []); [apply logs_read|intros v].
    apply logs_ret. }
  intros shape.
  apply (logs_bind [_] (_ :: _)); [unfold ones; logging NpOnes|intros o].
  apply (logs_bind [_] (_ :: _));
    [unfold scalar_mul; logging NpScalarMul|intros x_hat].
  apply (logs_bind [_] _); [unfold rot90; logging NpRot90|intros psf_rot].
  eapply logs_eq; [apply (right_id_L [] (++))|].
  apply logs_bind; [|intros _; apply logs_ret].
  unfold for_range.
  eapply logs_eq; [|apply logs_for_each].
  - unfold range. by rewrite length_seqZ.
  - intros i. apply logs_loop_body.
Qed.

End RichardsonLucyFacts.

(** The model runs: two rounds on a pixel of value 3 under a PSF of value 1
    give an estimate equal to 3; an image with one axis and a PSF with two
    make the first convolution of the loop raise. *)
Example pixel_two_rounds :
  exists x_hat s',
    RL.RL_Deconvolve Pixel.image Pixel.psf 2 (Pixel.two_arrays 3 1)
    = (RL.Done x_hat, s') /\
    (exists x, RL.value s' x_hat = Some (Pixel.arr x) /\ Qeq x 3) /\
    RL.updates (RL.trace s') = 2%nat.
Proof.
  eexists. eexists. split; [vm_compute; reflexivity|].
  split; [|reflexivity]. eexists. split; [vm_compute; reflexivity|].
  reflexivity.
Qed.

Example pixel_axes_mismatch :
  fst (RL.RL_Deconvolve Pixel.image Pixel.psf 2
         (Pixel.two (Pixel.vec 3) (Pixel.arr 1)))
  = RL.Raised Pixel.AxesDiffer /\
  RL.trace (snd (RL.RL_Deconvolve Pixel.image Pixel.psf 2
                   (Pixel.two (Pixel.vec 3) (Pixel.arr 1))))
  = RL.setup_calls ++ [RL.Threw RL.ConvolveFft Pixel.AxesDiffer].
Proof. split; vm_compute; reflexivity. Qed.

Section RichardsonLucyTheorems.
Import RL.
Context {L : Library}.

(** C1. [RL_Deconvolve(image, psf, n_iter)] implements Richardson-Lucy
    deconvolution as the notebook states it: from an array of 0.5 with the
    image's shape and the PSF rotated by 180 degrees, [n_iter] times the
    estimate is multiplied by
    [convolve(image / convolve(x_hat, psf), psf_rot)], and the final
    estimate is returned. The program, which works on buffers and updates
    [x_hat] in place, returns an array holding [x] exactly when the method
    [richardson_lucy_spec] yields [x], and raises [e] exactly when a library
    call of the method raises [e]. *)
Theorem RL_Deconvolve_is_richardson_lucy
    (image psf : aref) (n_iter : Z) (s : state) (y H : ndarray) :
  value s image = Some y -> value s psf = Some H ->
  let run := RL_Deconvolve image psf n_iter s in
  (forall x, richardson_lucy_spec y H n_iter = inr x <->
             exists x_hat, fst run = Done x_hat /\
                           value (snd run) x_hat = Some x) /\
  (forall e, richardson_lucy_spec y H n_iter = inl e <-> fst run = Raised e).
Proof.
  intros Hy HH run. subst run.
  pose proof (RL_Deconvolve_run image psf n_iter s y H Hy HH) as Hrun.
  destruct (richardson_lucy_spec y H n_iter) as [e|x].
  - destruct Hrun as [s' ->]. simpl. split.
    + intros x. split; [done|]. by intros (x_hat & Hd & _).
    + intros e'. split; [by intros [= ->]|by intros [= ->]].
  - destruct Hrun as (x_hat & s' & -> & Hx). simpl. split.
    + intros x'. split.
      * intros [= <-]. by exists x_hat.
      * intros (x_hat' & [= <-] & Hx'). rewrite Hx in Hx'.
        by injection Hx' as ->.
    + intros e. by split.
Qed.

(** C6, as amended. [RL_Deconvolve] is a bounded iteration: for every
    image, psf and [n_iter >= 0] the call ends, after at most [n_iter]
    update steps; it has no convergence test, early exit or unbounded loop
    of its own. When no library call raises, it makes exactly the calls of
    [n_iter] rounds, so exactly [n_iter] update steps, and the array it
    returns holds the current estimate: the initial estimate corrected
    [n_iter] times. When a library call raises, that call is the last one
    made and its exception is the outcome. *)
Theorem RL_Deconvolve_bounded
    (image psf : aref) (n_iter : Z) (s : state) (y H : ndarray) :
  value s image = Some y -> value s psf = Some H -> 0 <= n_iter ->
  exists o s' t,
    RL_Deconvolve image psf n_iter s = (o, s') /\
    trace s' = trace s ++ t /\
    match o with
    | Done x_hat =>
        t = setup_calls ++ rounds (Z.to_nat n_iter) /\
        Z.of_nat (updates t) = n_iter /\
        exists x, richardson_lucy_spec y H n_iter = inr x /\
                  value s' x_hat = Some x
    | Raised e =>
        Z.of_nat (updates t) <= n_iter /\
        (exists f, last t = Some (Threw f e)) /\
        richardson_lucy_spec y H n_iter = inl e
    | Stuck => False
    end.
Proof.
  intros Hy HH Hn.
  destruct (steps_RL_Deconvolve image psf n_iter s) as (t & Et & Bt & Dt).
  destruct (transparent_RL_Deconvolve image psf n_iter s)
    as (t' & Et' & Pt).
  assert (t' = t) as -> by (rewrite Et in Et'; by apply app_inv_head in Et').
  pose proof (RL_Deconvolve_run image psf n_iter s y H Hy HH) as Hrun.
  destruct (richardson_lucy_spec y H n_iter) as [e|x].
  - destruct Hrun as [s' Hrun]. exists (Raised e), s', t.
    rewrite Hrun in Et, Pt. simpl in Et, Pt.
    split; [done|]. split; [done|]. split; [lia|]. split; [|done].
    destruct Pt as (t0 & f & -> & _). exists f. apply last_snoc.
  - destruct Hrun as (x_hat & s' & Hrun & Hx). exists (Done x_hat), s', t.
    pose proof (logs_RL_Deconvolve image psf n_iter s x_hat s' Hrun) as Hlog.
    rewrite Hrun in Et, Dt. simpl in Et, Dt.
    split; [done|]. split; [done|]. split.
    { rewrite Et in Hlog. by apply app_inv_head in Hlog. }
    rewrite (Dt x_hat eq_refl). split; [lia|]. by exists x.
Qed.

(** C7. No operation handles failures: an operation raises an error exactly
    when one of the library calls it makes raises it. For [convolve] and
    [RL_Deconvolve], in every state, the outcome is the exception [e]
    exactly when a library call of the run threw [e] (so a division that
    throws ends the run: it is not guarded); [fibonacci] returns a list
    for every integer, [fibonacci_iter.next] returns a value in every
    state of the instance, and resuming [fibonacci_gen] yields a value
    after any number of values. *)
Theorem errors_come_from_library_calls
    (image psf kernel : aref) (n_iter : Z) (s : state) :
  (exists t,
     trace (snd (RL_Deconvolve image psf n_iter s)) = trace s ++ t /\
     forall e, fst (RL_Deconvolve image psf n_iter s) = Raised e <->
               exists f, Threw f e ∈ t) /\
  (exists t,
     trace (snd (convolve image kernel s)) = trace s ++ t /\
     forall e, fst (convolve image kernel s) = Raised e <->
               exists f, Threw f e ∈ t) /\
  (forall end_, length (Fib.fibonacci end_) = Z.to_nat end_) /\
  (forall self : Fib.fibonacci_iter,
     Fib.iter_next self = Some (Fib.next self)) /\
  (forall end_ k,
     is_Some (Fib.iter_next (snd (Fib.pull k (Fib.fibonacci_gen end_))))).
Proof.
  split; [|split; [|split; [|split]]].
  - destruct (transparent_RL_Deconvolve image psf n_iter s) as (t & Et & Pt).
    exists t. split; [done|]. intros e. by apply propagated_raised.
  - destruct (transparent_convolve image kernel s) as (t & Et & Pt).
    exists t. split; [done|]. intros e. by apply propagated_raised.
  - apply length_fibonacci.
  - done.
  - intros end_ k. destruct (gen_next_value k end_) as [g' ->]. by eexists.
Qed.

(** C10. [RL_Deconvolve] does not modify its arguments: after the call the
    arrays [image] and [psf] hold the values they held before it. Every
    buffer that existed before the call is unchanged, and the array that
    is returned, the only one updated in place, has a buffer that did not
    exist before the call. *)
Theorem RL_Deconvolve_keeps_arguments
    (image psf : aref) (n_iter : Z) (s : state) (y H : ndarray) :
  value s image = Some y -> value s psf = Some H ->
  let run := RL_Deconvolve image psf n_iter s in
  value (snd run) image = Some y /\
  value (snd run) psf = Some H /\
  heap s ⊆ heap (snd run) /\
  forall x_hat, fst run = Done x_hat -> heap s !! base x_hat = None.
Proof.
  intros Hy HH run.
  destruct (keeps_RL_Deconvolve (heap s) image psf n_iter s) as [Hsub Hnew];
    [done|].
  fold run in Hsub, Hnew.
  assert (Hval : forall r v, value s r = Some v ->
                             value (snd run) r = Some v).
  { intros r v. unfold value. intros Hv.
    destruct (heap s !! base r) as [b|] eqn:Hb; [|done].
    by rewrite (lookup_weaken _ _ _ _ Hb Hsub). }
  split; [by apply Hval|]. split; [by apply Hval|]. by split.
Qed.

End RichardsonLucyTheorems.

Lemma RL_Deconvolve_is_richardson_lucy_witness :
  RL.value (Pixel.two_arrays 3 1) Pixel.image = Some (Pixel.arr 3) /\
  RL.value (Pixel.two_arrays 3 1) Pixel.psf = Some (Pixel.arr 1) /\
  exists x_hat,
    fst (RL.RL_Deconvolve Pixel.image Pixel.psf 2 (Pixel.two_arrays 3 1))
    = RL.Done x_hat /\
    RL.value (snd (RL.RL_Deconvolve Pixel.image Pixel.psf 2
                     (Pixel.two_arrays 3 1))) x_hat
    = Some (Pixel.arr (22500 # 7500)).
Proof.
  split; [reflexivity|]. split; [reflexivity|].
  apply (RL_Deconvolve_is_richardson_lucy
           Pixel.image Pixel.psf 2 (Pixel.two_arrays 3 1) (Pixel.arr 3) (Pixel.arr 1));
    reflexivity.
Defined.

Lemma RL_Deconvolve_bounded_witness :
  RL.value (Pixel.two_arrays 3 1) Pixel.image = Some (Pixel.arr 3) /\
  RL.value (Pixel.two_arrays 3 1) Pixel.psf = Some (Pixel.arr 1) /\
  0 <= 2 /\
  exists o s' t,
    RL.RL_Deconvolve Pixel.image Pixel.psf 2 (Pixel.two_arrays 3 1) = (o, s') /\
    RL.trace s' = RL.trace (Pixel.two_arrays 3 1) ++ t /\
    match o with
    | RL.Done x_hat =>
        t = RL.setup_calls ++ RL.rounds (Z.to_nat 2) /\
        Z.of_nat (RL.updates t) = 2 /\
        exists x,
          RL.richardson_lucy_spec (Pixel.arr 3) (Pixel.arr 1) 2 = inr x /\
          RL.value s' x_hat = Some x
    | RL.Raised e =>
        Z.of_nat (RL.updates t) <= 2 /\
        (exists f, last t = Some (RL.Threw f e)) /\
        RL.richardson_lucy_spec (Pixel.arr 3) (Pixel.arr 1) 2 = inl e
    | RL.Stuck => False
    end.
Proof.
  split; [reflexivity|]. split; [reflexivity|]. split; [lia|].
  apply (RL_Deconvolve_bounded
           Pixel.image Pixel.psf 2 (Pixel.two_arrays 3 1)
           (Pixel.arr 3) (Pixel.arr 1));
    [reflexivity|reflexivity|lia].
Defined.

(** C6 as it was stated does not hold for every image and psf: with an
    image of one axis and a PSF of two, [convolve_fft] raises in the first
    round, so the call with [n_iter = 2] returns no estimate and has made
    no update step. *)
Lemma RL_Deconvolve_bounded_counterexample :
  RL.value (Pixel.two (Pixel.vec 3) (Pixel.arr 1)) Pixel.image
  = Some (Pixel.vec 3) /\
  RL.value (Pixel.two (Pixel.vec 3) (Pixel.arr 1)) Pixel.psf
  = Some (Pixel.arr 1) /\
  0 <= 2 /\
  ~ (exists x_hat s',
       RL.RL_Deconvolve Pixel.image Pixel.psf 2
         (Pixel.two (Pixel.vec 3) (Pixel.arr 1)) = (RL.Done x_hat, s') /\
       Z.of_nat (RL.updates (RL.trace s')) = 2) /\
  fst (RL.RL_Deconvolve Pixel.image Pixel.psf 2
         (Pixel.two (Pixel.vec 3) (Pixel.arr 1)))
  = RL.Raised Pixel.AxesDiffer /\
  RL.updates (RL.trace (snd (RL.RL_Deconvolve Pixel.image Pixel.psf 2
                               (Pixel.two (Pixel.vec 3) (Pixel.arr 1)))))
  = 0%nat.
Proof.
  split; [reflexivity|]. split; [reflexivity|]. split; [lia|].
  split; [|split; vm_compute; reflexivity].
  intros (x_hat & s' & Hrun & _).
  apply (f_equal fst) in Hrun. vm_compute in Hrun. discriminate Hrun.
Qed.

Lemma RL_Deconvolve_keeps_arguments_witness :
  RL.value (Pixel.two_arrays 3 1) Pixel.image = Some (Pixel.arr 3) /\
  RL.value (Pixel.two_arrays 3 1) Pixel.psf = Some (Pixel.arr 1) /\
  RL.value (snd (RL.RL_Deconvolve Pixel.image Pixel.psf 2
                   (Pixel.two_arrays 3 1))) Pixel.image = Some (Pixel.arr 3) /\
  RL.value (snd (RL.RL_Deconvolve Pixel.image Pixel.psf 2
                   (Pixel.two_arrays 3 1))) Pixel.psf = Some (Pixel.arr 1).
Proof.
  split; [reflexivity|]. split; [reflexivity|].
  pose proof (RL_Deconvolve_keeps_arguments
                Pixel.image Pixel.psf 2 (Pixel.two_arrays 3 1) (Pixel.arr 3) (Pixel.arr 1)
                eq_refl eq_refl) as (Hi & Hp & _).
  split; [exact Hi | exact Hp].
Defined.

(* ===================================================================== *)
(** * Part III: further properties of the same programs                   *)
(* ===================================================================== *)

(** ** The Fibonacci programs *)

Section FibonacciMore.
Import Fib.

Lemma terms_app (j a b : nat) :
  terms j (a + b) = terms j a ++ terms (j + a) b.
Proof. unfold terms. by rewrite seq_app, fmap_app. Qed.


(** For any integer, also a negative one. *)
Lemma fibonacci_to_nat (end_ : Z) : fibonacci end_ = terms 0 (Z.to_nat end_).
Proof.
  destruct (Z.le_gt_cases 0 end_) as [Hle|Hlt].
  - rewrite <- (Z2Nat.id end_) at 1 by done. apply fibonacci_terms.
  - unfold fibonacci, range. rewrite seqZ_nil by lia.
    by replace (Z.to_nat end_) with 0%nat by lia.
Qed.






(** What a call to [next] leaves: the state the remaining calls start
    from. *)
Lemma pull_S_iter (k : nat) (self : fibonacci_iter) :
  pull (S k) self
  = (fst (next self) :: fst (pull k (snd (next self))),
     snd (pull k (snd (next self)))).
Proof.
  cbn [pull iter_next fibonacci_iter_Iterator].
  destruct (next self) as [v it']. cbn [fst snd].
  by destruct (pull k it').
Qed.

(** X1. A count that is zero or negative gives the empty list, not an
    error: the loop of [fibonacci] runs over an empty range. *)
Theorem fibonacci_nonpositive (end_ : Z) :
  end_ <= 0 -> fibonacci end_ = [].
Proof.
  intros Hle. rewrite fibonacci_to_nat.
  by replace (Z.to_nat end_) with 0%nat by lia.
Qed.

Lemma fibonacci_nonpositive_witness :
  -3 <= 0 /\ fibonacci (-3) = [].
Proof. split; [lia | apply (fibonacci_nonpositive (-3)); lia]. Defined.

(** X2. A longer call extends a shorter one: for [m <= n] the list
    [fibonacci(m)] is the prefix of [fibonacci(n)] made of its first [m]
    elements. *)
Theorem fibonacci_extends (m n : Z) :
  m <= n ->
  fibonacci m `prefix_of` fibonacci n /\
  take (Z.to_nat m) (fibonacci n) = fibonacci m.
Proof.
  intros Hmn. rewrite !fibonacci_to_nat.
  replace (Z.to_nat n)
    with (Z.to_nat m + (Z.to_nat n - Z.to_nat m))%nat by lia.
  rewrite terms_app. split.
  - by eexists.
  - apply take_app_length'. by rewrite length_terms.
Qed.

Lemma fibonacci_extends_witness :
  4 <= 9 /\ take (Z.to_nat 4) (fibonacci 9) = fibonacci 4.
Proof. split; [lia | apply (fibonacci_extends 4 9); lia]. Defined.



(** X4. A window of the iterator is a window of the list: for bounds
    [a] and [b] that [islice] accepts ([0 <= a, b <= sys.maxsize]),
    [list(islice(fibonacci_iter(), a, b))] is [fibonacci(b)] without its
    first [a] elements (the empty list when [a >= b]). *)
Theorem islice_window (maxsize a b : Z) :
  0 <= a <= maxsize -> 0 <= b <= maxsize ->
  list_islice maxsize (iter init) a b
  = Some (drop (Z.to_nat a) (fibonacci b)).
Proof.
  intros Ha Hb. unfold list_islice, iter.
  rewrite bool_decide_eq_true_2 by lia.
  destruct (pull_iter (Z.to_nat a) 0 init eq_refl) as [Hv Hs].
  destruct (pull (Z.to_nat a) init) as [vs it1]. cbn [fst snd] in Hv, Hs.
  destruct (pull_iter (Z.to_nat (b - a)) _ it1 Hs) as [Hw _].
  rewrite Hw, fibonacci_to_nat. f_equal. simpl plus.
  destruct (Z.le_gt_cases a b) as [Hle|Hgt].
  - replace (Z.to_nat b)
      with (Z.to_nat a + Z.to_nat (b - a))%nat by lia.
    rewrite terms_app. symmetry. apply drop_app_length'.
    by rewrite length_terms.
  - replace (Z.to_nat (b - a)) with 0%nat by lia.
    symmetry. apply drop_ge. rewrite length_terms. lia.
Qed.

Lemma islice_window_witness :
  0 <= 3 <= 2 ^ 63 - 1 /\ 0 <= 7 <= 2 ^ 63 - 1 /\
  list_islice (2 ^ 63 - 1) (iter init) 3 7
  = Some (drop (Z.to_nat 3) (fibonacci 7)).
Proof.
  split; [lia|]. split; [lia|]. apply (islice_window (2 ^ 63 - 1) 3 7); lia.
Defined.

(** X5. The iterator is single-pass: [__iter__] returns the instance
    itself, so iterating again over an instance that has produced [m]
    values continues with the following terms instead of starting over. *)
Theorem iter_resumes (m n : nat) :
  let used := snd (pull m (iter init)) in
  fst (pull n (iter used)) = drop m (fibonacci (Z.of_nat (m + n))) /\
  fst (pull m (iter init)) ++ fst (pull n (iter used))
  = fibonacci (Z.of_nat (m + n)).
Proof.
  unfold iter. cbv zeta.
  destruct (pull_iter m 0 init eq_refl) as [Hv Hs].
  destruct (pull_iter n _ _ Hs) as [Hw _].
  rewrite Hv, Hw, fibonacci_terms, terms_app. simpl plus. split; [|done].
  symmetry. apply drop_app_length'. by rewrite length_terms.
Qed.

(** X6. The recurrence runs from any seed: on an instance whose attributes
    were set to [previous = p] and [current = c], the call of [next] that
    follows [k] earlier calls returns [c * F_{k+1} + p * F_k]. *)
Theorem seeded_next (self : fibonacci_iter) (k : nat) :
  fst (next (snd (pull k self)))
  = self_current self * F (S k) + self_previous self * F k.
Proof.
  revert self. induction k as [|k IH]; intros self.
  - cbn [pull snd next fst]. change (F 1) with 1. change (F 0) with 0. lia.
  - rewrite pull_S_iter. cbn [snd]. rewrite IH.
    cbn [next snd self_current self_previous]. rewrite (F_rec k). lia.
Qed.

(** X7. Generator and iterator produce the same values, but the generator
    updates its pair after the [yield] and the iterator before it returns:
    after [k >= 1] values the frame holds [(F_{k-1}, F_k)] and its argument
    [end] unchanged, the instance holds [(F_k, F_{k+1})]. *)
Theorem gen_frame_lags (end_ : Z) (k : nat) :
  snd (pull (S k) (fibonacci_gen end_)) = GenSuspended end_ (F k) (F (S k)) /\
  snd (pull (S k) init)
  = {| self_previous := F (S k); self_current := F (S (S k)) |} /\
  fst (pull (S k) (fibonacci_gen end_)) = fst (pull (S k) init).
Proof.
  rewrite pull_gen. cbn [fst snd].
  destruct (pull_iter (S k) 0 init eq_refl) as [Hv Hs].
  rewrite Hv. split; [done|]. split; [|done].
  destruct (snd (pull (S k) init)) as [p c].
  unfold holds_pair in Hs. cbn [self_previous self_current] in Hs.
  simpl plus in Hs. by injection Hs as -> ->.
Qed.

End FibonacciMore.

(** ** Cardinality *)

Section CardinalityMore.
Context {T : Type} `{Countable T}.

Lemma distinct_count_le (xs : list T) :
  (Card.distinct_count_spec xs <= length xs)%nat.
Proof.
  induction xs as [|x xs IH]; simpl; [done|].
  destruct (decide (x ∈ xs)); lia.
Qed.

Lemma distinct_count_NoDup (xs : list T) :
  Card.distinct_count_spec xs = length xs <-> NoDup xs.
Proof.
  induction xs as [|x xs IH]; simpl.
  - split; [constructor|done].
  - rewrite NoDup_cons. pose proof (distinct_count_le xs).
    destruct (decide (x ∈ xs)) as [Hin|Hnin].
    + split; [lia|]. by intros [Hnin _].
    + rewrite <- IH. split; [intros; split; [done|lia]|intros [_ ->]; done].
Qed.

(** X8. A set never has more elements than the list it was built from, and
    it has as many exactly when the list has no repeated element. *)
Theorem card_at_most_length (xs : list T) :
  Card.len (Card.set xs) <= Z.of_nat (length xs) /\
  (Card.len (Card.set xs) = Z.of_nat (length xs) <-> NoDup xs).
Proof.
  unfold Card.len. rewrite size_set. split.
  - pose proof (distinct_count_le xs). lia.
  - rewrite <- distinct_count_NoDup. lia.
Qed.

(** X9. The set, and so its cardinality, depends only on which elements
    occur in the list, not on their order or on how often they occur. *)
Theorem card_same_elements (xs ys : list T) :
  (forall x, x ∈ xs <-> x ∈ ys) ->
  Card.set xs = Card.set ys /\
  Card.len (Card.set xs) = Card.len (Card.set ys).
Proof.
  intros Hsame.
  assert (Heq : Card.set xs = Card.set ys).
  { apply set_eq. intros x. by rewrite !elem_of_set. }
  by rewrite Heq.
Qed.

End CardinalityMore.

Lemma card_same_elements_witness :
  (forall x : Z, x ∈ [1; 1; 2; 3; 5] <-> x ∈ [5; 3; 2; 1]) /\
  Card.set [1; 1; 2; 3; 5] = Card.set [5; 3; 2; 1].
Proof.
  assert (Hsame : forall x : Z, x ∈ [1; 1; 2; 3; 5] <-> x ∈ [5; 3; 2; 1]).
  { intros x. rewrite !elem_of_cons, !elem_of_nil. tauto. }
  split; [exact Hsame|]. apply (card_same_elements _ _ Hsame).
Defined.

(** ** Richardson-Lucy *)

Section RichardsonLucyMore.
Import RL.
Context {L : Library}.
Local Open Scope py_scope.

(** *** The method, one more round *)

Lemma corrections_spec_snoc (n : nat) (y H H_rot x : ndarray) :
  corrections_spec (S n) y H H_rot x
  = and_then (corrections_spec n y H H_rot x) (correction_spec y H H_rot).
Proof.
  revert x. induction n as [|n IH]; intros x.
  - change (and_then (correction_spec y H H_rot x) inr
            = correction_spec y H H_rot x).
    by destruct (correction_spec y H H_rot x).
  - change (and_then (correction_spec y H H_rot x)
              (corrections_spec (S n) y H H_rot)
            = and_then (and_then (correction_spec y H H_rot x)
                          (corrections_spec n y H H_rot))
                (correction_spec y H H_rot)).
    destruct (correction_spec y H H_rot x) as [e|x1]; [reflexivity|].
    exact (IH x1).
Qed.

Lemma corrections_spec_fails (n k : nat) (y H H_rot x : ndarray) (e : exn) :
  corrections_spec n y H H_rot x = inl e ->
  corrections_spec (n + k) y H H_rot x = inl e.
Proof.
  revert x. induction n as [|n IH]; intros x; [done|].
  cbn [corrections_spec plus].
  destruct (correction_spec y H H_rot x) as [e'|x1]; [done|].
  cbn [and_then]. apply IH.
Qed.

Lemma richardson_lucy_spec_succ (y H x : ndarray) (n : Z)
    (rot : ndarray -> ndarray) :
  0 <= n -> np_rot90 H 2 = inr rot ->
  richardson_lucy_spec y H n = inr x ->
  richardson_lucy_spec y H (n + 1) = correction_spec y H (rot H) x.
Proof.
  intros Hn Hrot. unfold richardson_lucy_spec.
  destruct (np_ones (np_shape y)) as [e|o]; [done|]. cbn [and_then].
  destruct (np_scalar_mul 0.5%Q o) as [e|x0]; [done|]. cbn [and_then].
  rewrite Hrot. cbn [and_then]. intros Hspec.
  replace (Z.to_nat (n + 1)) with (S (Z.to_nat n)) by lia.
  by rewrite corrections_spec_snoc, Hspec.
Qed.

Lemma richardson_lucy_spec_fails (y H : ndarray) (n n' : Z) (e : exn) :
  n <= n' ->
  richardson_lucy_spec y H n = inl e -> richardson_lucy_spec y H n' = inl e.
Proof.
  intros Hn. unfold richardson_lucy_spec.
  destruct (np_ones (np_shape y)) as [e0|o]; [done|]. cbn [and_then].
  destruct (np_scalar_mul 0.5%Q o) as [e0|x0]; [done|]. cbn [and_then].
  destruct (np_rot90 H 2) as [e0|rot]; [done|]. cbn [and_then].
  replace (Z.to_nat n')
    with (Z.to_nat n + (Z.to_nat n' - Z.to_nat n))%nat by lia.
  apply corrections_spec_fails.
Qed.

(** What the method yields, read off a run of the program. *)
Lemma run_Done_spec (image psf x_hat : aref) (n_iter : Z) (s s' : state)
    (y H x : ndarray) :
  value s image = Some y -> value s psf = Some H ->
  RL_Deconvolve image psf n_iter s = (Done x_hat, s') ->
  value s' x_hat = Some x ->
  richardson_lucy_spec y H n_iter = inr x.
Proof.
  intros Hy HH Hrun Hx.
  pose proof (RL_Deconvolve_run image psf n_iter s y H Hy HH) as Hspec.
  destruct (richardson_lucy_spec y H n_iter) as [e|x0].
  - destruct Hspec as [s0 Hspec]. by rewrite Hspec in Hrun.
  - destruct Hspec as (x_hat0 & s0 & Hspec & Hx0).
    rewrite Hspec in Hrun. injection Hrun as -> ->.
    rewrite Hx0 in Hx. by injection Hx as ->.
Qed.

Lemma run_Raised_spec (image psf : aref) (n_iter : Z) (s : state)
    (y H : ndarray) (e : exn) :
  value s image = Some y -> value s psf = Some H ->
  fst (RL_Deconvolve image psf n_iter s) = Raised e ->
  richardson_lucy_spec y H n_iter = inl e.
Proof.
  intros Hy HH Hrun.
  pose proof (RL_Deconvolve_run image psf n_iter s y H Hy HH) as Hspec.
  destruct (richardson_lucy_spec y H n_iter) as [e0|x0].
  - destruct Hspec as [s0 Hspec]. rewrite Hspec in Hrun.
    by injection Hrun as ->.
  - destruct Hspec as (x_hat0 & s0 & Hspec & _). by rewrite Hspec in Hrun.
Qed.

(** X10. With [n_iter <= 0] the loop is not entered: the result is the
    initial estimate [0.5 * np.ones(image.shape)] and no convolution is
    made; the PSF is rotated all the same, so a PSF that [np.rot90] rejects
    still makes the call raise. *)
Theorem RL_Deconvolve_no_rounds
    (image psf : aref) (n_iter : Z) (s : state) (y H o x0 : ndarray) :
  n_iter <= 0 ->
  value s image = Some y -> value s psf = Some H ->
  np_ones (np_shape y) = inr o -> np_scalar_mul 0.5%Q o = inr x0 ->
  match np_rot90 H 2 with
  | inr _ => exists x_hat s',
      RL_Deconvolve image psf n_iter s = (Done x_hat, s') /\
      value s' x_hat = Some x0 /\
      trace s' = trace s ++ setup_calls
  | inl e => exists s', RL_Deconvolve image psf n_iter s = (Raised e, s')
  end.
Proof.
  intros Hn Hy HH Hones Hmul.
  pose proof (RL_Deconvolve_run image psf n_iter s y H Hy HH) as Hrun.
  unfold richardson_lucy_spec in Hrun. rewrite Hones in Hrun.
  cbn [and_then] in Hrun. rewrite Hmul in Hrun. cbn [and_then] in Hrun.
  destruct (np_rot90 H 2) as [e|rot]; cbn [and_then] in Hrun; [done|].
  replace (Z.to_nat n_iter) with 0%nat in Hrun by lia.
  cbn [corrections_spec] in Hrun.
  destruct Hrun as (x_hat & s' & Hrun & Hx). exists x_hat, s'.
  split; [done|]. split; [done|].
  rewrite (logs_RL_Deconvolve image psf n_iter s x_hat s' Hrun).
  replace (Z.to_nat n_iter) with 0%nat by lia.
  cbn [rounds]. by rewrite (right_id_L [] (++)).
Qed.

(** X11. One more iteration is one more correction: if the call with
    [n_iter = n] returns an estimate [x], the call with [n_iter = n + 1] on
    the same arrays returns [x * convolve(image / convolve(x, psf),
    psf_rot)], or raises what computing it raises. *)
Theorem RL_Deconvolve_one_more
    (image psf x_hat : aref) (n : Z) (s : state) (y H x : ndarray)
    (rot : ndarray -> ndarray) :
  0 <= n ->
  value s image = Some y -> value s psf = Some H ->
  np_rot90 H 2 = inr rot ->
  fst (RL_Deconvolve image psf n s) = Done x_hat ->
  value (snd (RL_Deconvolve image psf n s)) x_hat = Some x ->
  match correction_spec y H (rot H) x with
  | inr x' => exists x_hat' s',
      RL_Deconvolve image psf (n + 1) s = (Done x_hat', s') /\
      value s' x_hat' = Some x'
  | inl e => exists s', RL_Deconvolve image psf (n + 1) s = (Raised e, s')
  end.
Proof.
  intros Hn Hy HH Hrot Hrun Hx.
  destruct (RL_Deconvolve image psf n s) as [o s1] eqn:Hpair.
  cbn [fst snd] in Hrun, Hx. subst o.
  pose proof (run_Done_spec _ _ _ _ _ _ _ _ _ Hy HH Hpair Hx) as Hspec.
  pose proof (RL_Deconvolve_run image psf (n + 1) s y H Hy HH) as Hnext.
  by rewrite (richardson_lucy_spec_succ y H x n rot Hn Hrot Hspec) in Hnext.
Qed.

(** X12. A call that returns has made exactly these library calls, in this
    order: [np.ones], the product by 0.5, [np.rot90], and then in each of
    the [n_iter] rounds [convolve_fft], the division, [convolve_fft] and the
    in-place product; so two FFT convolutions per round and none outside
    the loop. *)
Theorem RL_Deconvolve_calls
    (image psf x_hat : aref) (n_iter : Z) (s : state) :
  fst (RL_Deconvolve image psf n_iter s) = Done x_hat ->
  trace (snd (RL_Deconvolve image psf n_iter s))
  = trace s ++ setup_calls ++ rounds (Z.to_nat n_iter).
Proof.
  intros Hrun.
  destruct (RL_Deconvolve image psf n_iter s) as [o s'] eqn:Hpair.
  cbn [fst snd] in *. subst o.
  exact (logs_RL_Deconvolve image psf n_iter s x_hat s' Hpair).
Qed.

(** X13. [convolve] makes one call of [convolve_fft], with
    [boundary='wrap'], [crop=False], [nan_treatment='fill'] and
    [normalize_kernel=False], on the contents of its two arguments (which
    may be the same array); the result is a new array, in a buffer that was
    not in use, every buffer that existed is unchanged, and an exception of
    [convolve_fft] is raised as it is, with no buffer changed. *)
Theorem convolve_new_array
    (image kernel : aref) (s : state) (vi vk : ndarray) :
  value s image = Some vi -> value s kernel = Some vk ->
  match convolve_fft vi vk
          {| boundary := "wrap"; crop := false;
             nan_treatment := "fill"; normalize_kernel := false |} with
  | inr c => exists r s',
      convolve image kernel s = (Done r, s') /\
      value s' r = Some c /\
      heap s !! base r = None /\
      heap s ⊆ heap s' /\
      trace s' = trace s ++ [Returned ConvolveFft]
  | inl e => exists s',
      convolve image kernel s = (Raised e, s') /\
      heap s' = heap s /\
      trace s' = trace s ++ [Threw ConvolveFft e]
  end.
Proof.
  intros Hi Hk. unfold convolve.
  rewrite (binary_run ConvolveFft
             (fun x y => convolve_fft x y convolve_kwargs) _ _ _ _ _ Hi Hk).
  unfold bind, call, new, convolve_kwargs.
  destruct (convolve_fft vi vk _) as [e|c].
  - eexists. split; [reflexivity|]. by split.
  - eexists. eexists. split; [reflexivity|]. cbn [heap trace base whole].
    split; [|split; [|split]].
    + unfold value. cbn [heap base see whole]. by rewrite lookup_insert_eq.
    + apply fresh_unused.
    + apply insert_subseteq, fresh_unused.
    + done.
Qed.

(** X14. More iterations do not rescue a failing call: if the call raises
    [e] with [n_iter = n], it raises the same [e] with every larger
    [n_iter], on the same arrays. *)
Theorem RL_Deconvolve_failure_persists
    (image psf : aref) (n n' : Z) (s : state) (y H : ndarray) (e : exn) :
  n <= n' ->
  value s image = Some y -> value s psf = Some H ->
  fst (RL_Deconvolve image psf n s) = Raised e ->
  fst (RL_Deconvolve image psf n' s) = Raised e.
Proof.
  intros Hn Hy HH Hrun.
  pose proof (run_Raised_spec _ _ _ _ _ _ _ Hy HH Hrun) as Hspec.
  pose proof (RL_Deconvolve_run image psf n' s y H Hy HH) as Hnext.
  rewrite (richardson_lucy_spec_fails y H n n' e Hn Hspec) in Hnext.
  destruct Hnext as [s' Hnext]. by rewrite Hnext.
Qed.

(** X15. The result depends on the contents of [image] and [psf] only: two
    calls whose arguments hold the same contents end alike, whatever
    buffers the arrays are in, whatever else exists, and whether or not the
    two arguments share a buffer. *)
Theorem RL_Deconvolve_contents_only
    (image1 psf1 image2 psf2 : aref) (n_iter : Z) (s1 s2 : state)
    (y H : ndarray) :
  value s1 image1 = Some y -> value s1 psf1 = Some H ->
  value s2 image2 = Some y -> value s2 psf2 = Some H ->
  let run1 := RL_Deconvolve image1 psf1 n_iter s1 in
  let run2 := RL_Deconvolve image2 psf2 n_iter s2 in
  (forall e, fst run1 = Raised e -> fst run2 = Raised e) /\
  (forall x1, fst run1 = Done x1 ->
     exists x2, fst run2 = Done x2 /\
                value (snd run2) x2 = value (snd run1) x1).
Proof.
  intros Hy1 HH1 Hy2 HH2 run1 run2. subst run1 run2.
  pose proof (RL_Deconvolve_run image1 psf1 n_iter s1 y H Hy1 HH1) as Hr1.
  pose proof (RL_Deconvolve_run image2 psf2 n_iter s2 y H Hy2 HH2) as Hr2.
  destruct (richardson_lucy_spec y H n_iter) as [e0|x].
  - destruct Hr1 as [s1' ->]. destruct Hr2 as [s2' ->]. by split.
  - destruct Hr1 as (x1 & s1' & -> & Hx1).
    destruct Hr2 as (x2 & s2' & -> & Hx2). simpl. split; [done|].
    intros x1' [= <-]. exists x2. by rewrite Hx1, Hx2.
Qed.

End RichardsonLucyMore.

Lemma RL_Deconvolve_no_rounds_witness :
  -1 <= 0 /\
  exists x_hat s',
    RL.RL_Deconvolve Pixel.image Pixel.psf (-1) (Pixel.two_arrays 3 1)
    = (RL.Done x_hat, s') /\
    RL.value s' x_hat = Some (Pixel.arr (0.5 * 1)) /\
    RL.trace s' = RL.trace (Pixel.two_arrays 3 1) ++ RL.setup_calls.
Proof.
  split; [lia|].
  apply (RL_Deconvolve_no_rounds Pixel.image Pixel.psf (-1)
           (Pixel.two_arrays 3 1) (Pixel.arr 3) (Pixel.arr 1) (Pixel.arr 1) (Pixel.arr (0.5 * 1)));
    [lia|reflexivity..].
Defined.

Lemma RL_Deconvolve_one_more_witness :
  0 <= 1 /\
  fst (RL.RL_Deconvolve Pixel.image Pixel.psf 1 (Pixel.two_arrays 3 1))
  = RL.Done (RL.whole 4) /\
  exists x_hat' s',
    RL.RL_Deconvolve Pixel.image Pixel.psf (1 + 1) (Pixel.two_arrays 3 1)
    = (RL.Done x_hat', s') /\
    RL.value s' x_hat' = Some (Pixel.arr (22500 # 7500)).
Proof.
  split; [lia|]. split; [reflexivity|].
  apply (RL_Deconvolve_one_more Pixel.image Pixel.psf (RL.whole 4) 1
           (Pixel.two_arrays 3 1) (Pixel.arr 3) (Pixel.arr 1) (Pixel.arr (150 # 50)) (fun a => a));
    [lia|reflexivity..].
Defined.

Lemma RL_Deconvolve_calls_witness :
  fst (RL.RL_Deconvolve Pixel.image Pixel.psf 2 (Pixel.two_arrays 3 1))
  = RL.Done (RL.whole 4) /\
  RL.trace (snd (RL.RL_Deconvolve Pixel.image Pixel.psf 2
                   (Pixel.two_arrays 3 1)))
  = RL.trace (Pixel.two_arrays 3 1) ++ RL.setup_calls ++ RL.rounds 2.
Proof.
  split; [reflexivity|].
  apply (RL_Deconvolve_calls Pixel.image Pixel.psf (RL.whole 4) 2
           (Pixel.two_arrays 3 1)).
  reflexivity.
Defined.

Lemma convolve_new_array_witness :
  RL.value (Pixel.two_arrays 3 1) Pixel.image = Some (Pixel.arr 3) /\
  exists r s',
    RL.convolve Pixel.image Pixel.image (Pixel.two_arrays 3 1)
    = (RL.Done r, s') /\
    RL.value s' r = Some (Pixel.arr (3 * 3)) /\
    RL.heap (Pixel.two_arrays 3 1) !! RL.base r = None /\
    RL.heap (Pixel.two_arrays 3 1) ⊆ RL.heap s' /\
    RL.trace s'
    = RL.trace (Pixel.two_arrays 3 1) ++ [RL.Returned RL.ConvolveFft].
Proof.
  split; [reflexivity|].
  apply (convolve_new_array Pixel.image Pixel.image
           (Pixel.two_arrays 3 1) (Pixel.arr 3) (Pixel.arr 3)); reflexivity.
Defined.

Lemma RL_Deconvolve_failure_persists_witness :
  1 <= 5 /\
  RL.value (Pixel.two (Pixel.vec 3) (Pixel.arr 1)) Pixel.image
  = Some (Pixel.vec 3) /\
  RL.value (Pixel.two (Pixel.vec 3) (Pixel.arr 1)) Pixel.psf
  = Some (Pixel.arr 1) /\
  fst (RL.RL_Deconvolve Pixel.image Pixel.psf 1
         (Pixel.two (Pixel.vec 3) (Pixel.arr 1)))
  = RL.Raised Pixel.AxesDiffer /\
  fst (RL.RL_Deconvolve Pixel.image Pixel.psf 5
         (Pixel.two (Pixel.vec 3) (Pixel.arr 1)))
  = RL.Raised Pixel.AxesDiffer.
Proof.
  split; [lia|]. split; [reflexivity|]. split; [reflexivity|].
  split; [reflexivity|].
  apply (RL_Deconvolve_failure_persists Pixel.image Pixel.psf 1 5
           (Pixel.two (Pixel.vec 3) (Pixel.arr 1))
           (Pixel.vec 3) (Pixel.arr 1));
    [lia|reflexivity..].
Defined.

Lemma RL_Deconvolve_contents_only_witness :
  RL.value (Pixel.two_arrays 2 2) Pixel.image = Some (Pixel.arr 2) /\
  RL.value (Pixel.two_arrays 2 2) Pixel.psf = Some (Pixel.arr 2) /\
  exists x2,
    fst (RL.RL_Deconvolve Pixel.image Pixel.image 3 (Pixel.two_arrays 2 2))
    = RL.Done x2 /\
    RL.value (snd (RL.RL_Deconvolve Pixel.image Pixel.image 3
                     (Pixel.two_arrays 2 2))) x2
    = RL.value (snd (RL.RL_Deconvolve Pixel.image Pixel.psf 3
                       (Pixel.two_arrays 2 2))) (RL.whole 4).
Proof.
  split; [reflexivity|]. split; [reflexivity|].
  apply (RL_Deconvolve_contents_only
           Pixel.image Pixel.psf Pixel.image Pixel.image 3
           (Pixel.two_arrays 2 2) (Pixel.two_arrays 2 2) (Pixel.arr 2) (Pixel.arr 2));
    reflexivity.
Defined.
